(** * ShamirSecretSolver: base decoding and Lagrange reconstruction

    A shallow embedding of [src/main.cpp] (functions [decodeBaseString],
    [modPow] and [lagrangeInterpolation]) and the properties of the
    numeric core that the specification states about them.

    Conventions of the embedding:
    - [cpp_int] (boost, arbitrary precision) is [Z];
    - [long long] is a [Z] in [[-2^63, 2^63)]; every [+], [-] and [*] on
      [long long] operands is followed by the two's complement wrap-around
      [wrap64] (what the usual targets compute on signed overflow);
    - the C++ operator [%] truncates towards zero: it is [Z.rem], not
      [Z.modulo];
    - [std::vector] is a [seq], indexed with [nth];
    - [std::string] is [String.string], a [char] is an [ascii]. *)

From HB Require Import structures.
From mathcomp Require Import boot algebra.
From Stdlib Require Import ZArith Znumtheory Zpow_facts Lia String Ascii.
From Stdlib Require DecimalString DecimalFacts DecimalPos.

Set Implicit Arguments.
Unset Strict Implicit.
Unset Printing Implicit Defensive.

Import GRing.Theory.

(** ** Machine integers *)

Module LongLong.

Definition LLONG_MIN : Z := (- 2 ^ 63)%Z.
Definition LLONG_MAX : Z := (2 ^ 63 - 1)%Z.

(** A value that a [long long] variable can hold. *)
Definition in_range (z : Z) : Prop := (LLONG_MIN <= z <= LLONG_MAX)%Z.

(** Two's complement reduction of an exact result to 64 bits. *)
Definition wrap64 (z : Z) : Z := ((z + 2 ^ 63) mod 2 ^ 64 - 2 ^ 63)%Z.

Definition add (a b : Z) : Z := wrap64 (a + b).
Definition sub (a b : Z) : Z := wrap64 (a - b).
Definition mul (a b : Z) : Z := wrap64 (a * b).

(** [a % b] on C++ integers (sign of the dividend). *)
Definition rem (a b : Z) : Z := Z.rem a b.

End LongLong.

(** ** decodeBaseString (main.cpp, lines 10-19) *)

(** The code of a character, in [[0, 256)]; for the ASCII characters
    (codes below 128) it is the value of the [char] whether [char] is
    signed or not. *)
Definition char_code (ch : ascii) : Z := Z.of_N (N_of_ascii ch).

(** [isdigit] in the C locale. *)
Definition isdigit (ch : ascii) : bool :=
  ((48 <=? char_code ch) && (char_code ch <=? 57))%Z.

(** [tolower] in the C locale, on the character's code. *)
Definition tolower (ch : ascii) : Z :=
  if ((65 <=? char_code ch) && (char_code ch <=? 90))%Z
  then (char_code ch + 32)%Z else char_code ch.

(** The value [val] that the loop body assigns to a character
    (['0'] is 48 and ['a'] is 97). *)
Definition char_val (ch : ascii) : Z :=
  if isdigit ch then (char_code ch - 48)%Z
  else (tolower ch - 97 + 10)%Z.

(** The [for (char ch : s)] loop, from the accumulator [result]. *)
Fixpoint decode_loop (s : string) (base : Z) (result : Z) : Z :=
  match s with
  | EmptyString => result
  | String ch s' => decode_loop s' base (result * base + char_val ch)
  end.

Definition decodeBaseString (s : string) (base : Z) : Z :=
  decode_loop s base 0.

(** ** modPow (main.cpp, lines 22-31)

    The parameter [mod] of the source is written [mod_] ([mod] is a
    reserved notation of [Z]). *)

(** The [while (exp > 0)] loop.  A positive [exp] is read from its least
    significant bit: [exp & 1] is the constructor ([xI] and [xH] are odd,
    [xO] is even) and [exp >>= 1] is its argument; after [xH] the shifted
    exponent is [0] and the loop exits (the last squaring of [base] is
    never read). *)
Fixpoint modPow_loop (exp : positive) (result base mod_ : Z) : Z :=
  match exp with
  | xH => LongLong.rem (LongLong.mul result base) mod_
  | xO exp' =>
      modPow_loop exp' result
        (LongLong.rem (LongLong.mul base base) mod_) mod_
  | xI exp' =>
      modPow_loop exp'
        (LongLong.rem (LongLong.mul result base) mod_)
        (LongLong.rem (LongLong.mul base base) mod_) mod_
  end.

Definition modPow (base exp mod_ : Z) : Z :=
  match exp with
  | Zpos e => modPow_loop e 1 (LongLong.rem base mod_) mod_
  | _ => 1
  end.

(** ** lagrangeInterpolation (main.cpp, lines 34-55) *)

(** [pair<long long, cpp_int>]: the x-coordinate and the share value. *)
Definition point : Type := Z * Z.

Definition point_x (points : seq point) (i : nat) : Z :=
  (nth (0, 0)%Z points i).1.
Definition point_y (points : seq point) (i : nat) : Z :=
  (nth (0, 0)%Z points i).2.

(** One iteration of the inner loop on the pair [(num, den)]. *)
Definition inner_step (points : seq point) (mod_ : Z) (i : nat)
    (acc : Z * Z) (j : nat) : Z * Z :=
  if i == j then acc
  else
    (LongLong.rem
       (LongLong.mul acc.1 (LongLong.sub mod_ (point_x points j))) mod_,
     LongLong.rem
       (LongLong.mul acc.2
          (LongLong.add
             (LongLong.sub (point_x points i) (point_x points j)) mod_))
       mod_).

(** The inner loop [for (j = 0; j < k; j++)], from [num = 1, den = 1]. *)
Definition num_den (points : seq point) (mod_ : Z) (i : nat) : Z * Z :=
  foldl (inner_step points mod_ i) (1, 1)%Z (iota 0 (size points)).

(** The value [term] of iteration [i] of the outer loop. *)
Definition lagrange_term (points : seq point) (mod_ : Z) (i : nat) : Z :=
  let yi := LongLong.rem (point_y points i) mod_ in
  let nd := num_den points mod_ i in
  let inv := modPow nd.2 (LongLong.sub mod_ 2) mod_ in
  LongLong.rem
    (LongLong.mul (LongLong.rem (LongLong.mul yi nd.1) mod_) inv) mod_.

Definition outer_step (points : seq point) (mod_ : Z)
    (secret : Z) (i : nat) : Z :=
  LongLong.rem (LongLong.add secret (lagrange_term points mod_ i)) mod_.

Definition lagrangeInterpolation (points : seq point) (mod_ : Z) : Z :=
  foldl (outer_step points mod_) 0%Z (iota 0 (size points)).

(** ** The interface of the specification

    The specification names the two entry points [decode] and
    [reconstruct] and lets a call end in a value or in a fault.  Neither
    C++ function contains a [throw] or an error return: the outcome of a
    call is the integer it returns. *)

Inductive fault : Type :=
  | InvalidDigit
  | DegenerateInterpolation
  | MalformedShareCount.

Inductive outcome : Type :=
  | Returned (v : Z)
  | Faulted (f : fault).

Definition decode (digits : string) (base : Z) : outcome :=
  Returned (decodeBaseString digits base).

Definition reconstruct (points : seq point) (modulus : Z) : outcome :=
  Returned (lagrangeInterpolation points modulus).

(** ** Vocabulary of the properties *)

(** The digit value of a character as the specification gives it:
    [0-9] is 0..9, [a-z] and [A-Z] are 10..35; no value otherwise. *)
Definition digit_value (ch : ascii) : option Z :=
  let c := char_code ch in
  if ((48 <=? c) && (c <=? 57))%Z then Some (c - 48)%Z
  else if ((97 <=? c) && (c <=? 122))%Z then Some (c - 97 + 10)%Z
  else if ((65 <=? c) && (c <=? 90))%Z then Some (c - 65 + 10)%Z
  else None.

(** The digit values of a string, most significant first, when every
    character is one of [0-9a-zA-Z]. *)
Fixpoint string_digits (s : string) : option (seq Z) :=
  match s with
  | EmptyString => Some [::]
  | String ch s' =>
      match digit_value ch, string_digits s' with
      | Some d, Some ds => Some (d :: ds)
      | _, _ => None
      end
  end.

(** The positional value [sum_i d_i * base^(L-1-i)] of [L] digits. *)
Fixpoint positional_value (base : Z) (ds : seq Z) : Z :=
  match ds with
  | [::] => 0
  | d :: ds' =>
      (d * base ^ Z.of_nat (size ds') + positional_value base ds')%Z
  end.

(** The digits of a decimal numeral of the Standard Library, most
    significant first. *)
Fixpoint uint_digits (u : Decimal.uint) : seq Z :=
  match u with
  | Decimal.Nil => [::]
  | Decimal.D0 u' => 0%Z :: uint_digits u'
  | Decimal.D1 u' => 1%Z :: uint_digits u'
  | Decimal.D2 u' => 2%Z :: uint_digits u'
  | Decimal.D3 u' => 3%Z :: uint_digits u'
  | Decimal.D4 u' => 4%Z :: uint_digits u'
  | Decimal.D5 u' => 5%Z :: uint_digits u'
  | Decimal.D6 u' => 6%Z :: uint_digits u'
  | Decimal.D7 u' => 7%Z :: uint_digits u'
  | Decimal.D8 u' => 8%Z :: uint_digits u'
  | Decimal.D9 u' => 9%Z :: uint_digits u'
  end.

(** The value at [x] of the polynomial with the coefficients [coeffs],
    constant term first. *)
Fixpoint poly_eval (coeffs : seq Z) (x : Z) : Z :=
  match coeffs with
  | [::] => 0
  | a :: coeffs' => (a + x * poly_eval coeffs' x)%Z
  end.

(** Points of the field of [modulus]: x-coordinates in [[1, modulus)],
    share values non-negative. *)
Definition field_point (modulus : Z) (pt : point) : bool :=
  ((1 <=? pt.1) && (pt.1 <? modulus) && (0 <=? pt.2))%Z.

Definition field_points (modulus : Z) (points : seq point) : bool :=
  all (field_point modulus) points.

(** Boolean equality on [Z] as an [eqType], for [uniq] and [perm_eq]. *)
HB.instance Definition _ := hasDecEq.Build Z Z.eqb_spec.

(** The x-coordinates of a point list. *)
Definition xs_of (points : seq point) : seq Z := [seq pt.1 | pt <- points].

(** Some x-coordinate occurs at two positions. *)
Definition has_duplicate_x (points : seq point) : bool :=
  ~~ uniq (xs_of points).

(** Trial division: no [d' >= d] with [d' * d' <= n] divides [n]. *)
Fixpoint no_divisor_from (fuel : nat) (d n : Z) : bool :=
  match fuel with
  | O => false
  | S fuel' =>
      if (n <? d * d)%Z then true
      else if (n mod d =? 0)%Z then false
      else no_divisor_from fuel' (d + 1)%Z n
  end.

Definition primeb (n : Z) : bool :=
  (1 <? n)%Z && no_divisor_from (Z.to_nat (Z.sqrt n)) 2%Z n.

(** The class of an integer in the prime field of [p] elements. *)
Definition to_Fp (p : nat) (z : Z) : 'F_p :=
  ((Z.to_nat (z mod Z.of_nat p))%:R)%R.

(** ** main (main.cpp, lines 57-89): one case

    The file handling and the JSON library are outside the embedding.  A
    parsed case is its threshold [k] (an [int]) and the map [entry] that
    gives, for the index [i], the pair of [stoi(j[to_string(i)]["base"])]
    and [j[to_string(i)]["value"]]; the key [n] is read and never used. *)

Definition MOD : Z := 1000000007%Z.

(** The loop [for (int i = 1; i <= k; i++)], from the index [i] with
    [count] iterations left; [push_back] is [rcons].  The counter is an
    [int] in the source: the loop is this one for [k < INT_MAX = 2^31 - 1]
    (at [k = INT_MAX] the test [i <= k] cannot fail and [i++] overflows),
    and for entries that are present and well formed (the JSON accessors
    and [stoi] throw otherwise); the properties of a case carry these two
    conditions. *)
Fixpoint shares_loop (count : nat) (i : Z) (entry : Z -> Z * string)
    (shares : seq point) : seq point :=
  match count with
  | O => shares
  | S count' =>
      let base := (entry i).1 in
      let value := (entry i).2 in
      let y := decodeBaseString value base in
      shares_loop count' (i + 1)%Z entry (rcons shares (i, y))
  end.

(** The vector [shares] after the loop: [k] iterations when [k >= 1],
    none otherwise. *)
Definition case_shares (k : Z) (entry : Z -> Z * string) : seq point :=
  shares_loop (Z.to_nat k) 1%Z entry [::].

(** The value [secret] that [main] prints for the case. *)
Definition case_secret (k : Z) (entry : Z -> Z * string) : Z :=
  lagrangeInterpolation (case_shares k entry) MOD.

(** Two strings of the same length whose characters agree after
    [tolower]. *)
Fixpoint same_up_to_case (s s' : string) : bool :=
  match s, s' with
  | EmptyString, EmptyString => true
  | String ch r, String ch' r' =>
      (tolower ch =? tolower ch')%Z && same_up_to_case r r'
  | _, _ => false
  end.

(** * Properties *)

(** ** Machine arithmetic without overflow *)

Lemma wrap64_small (z : Z) :
  LongLong.in_range z -> LongLong.wrap64 z = z.
Proof.
  rewrite /LongLong.in_range /LongLong.LLONG_MIN /LongLong.LLONG_MAX
          /LongLong.wrap64 => H.
  rewrite Z.mod_small; lia.
Qed.

Ltac ll_range :=
  rewrite /LongLong.in_range /LongLong.LLONG_MIN /LongLong.LLONG_MAX; lia.

Lemma add_small (a b : Z) :
  LongLong.in_range (a + b) -> LongLong.add a b = (a + b)%Z.
Proof. exact: wrap64_small. Qed.

Lemma sub_small (a b : Z) :
  LongLong.in_range (a - b) -> LongLong.sub a b = (a - b)%Z.
Proof. exact: wrap64_small. Qed.

Lemma mul_small (a b : Z) :
  LongLong.in_range (a * b) -> LongLong.mul a b = (a * b)%Z.
Proof. exact: wrap64_small. Qed.

Lemma rem_nonneg (a b : Z) :
  (0 <= a)%Z -> (0 < b)%Z -> LongLong.rem a b = (a mod b)%Z.
Proof. move=> Ha Hb; rewrite /LongLong.rem Z.rem_mod_nonneg //. Qed.

(** A product of two non-negative factors that fits in 64 bits is
    reduced exactly. *)
Lemma mulmod_exact (a b m : Z) :
  (0 < m)%Z -> (0 <= a)%Z -> (0 <= b)%Z -> (a * b < 2 ^ 63)%Z ->
  LongLong.rem (LongLong.mul a b) m = ((a * b) mod m)%Z.
Proof.
  move=> Hm Ha Hb Hab.
  have H0 : (0 <= a * b)%Z by apply: Z.mul_nonneg_nonneg.
  rewrite /LongLong.mul wrap64_small; last exact: rem_nonneg.
  rewrite /LongLong.in_range /LongLong.LLONG_MIN /LongLong.LLONG_MAX; lia.
Qed.

Lemma addmod_exact (a b m : Z) :
  (0 < m)%Z -> (0 <= a)%Z -> (0 <= b)%Z -> (a + b < 2 ^ 63)%Z ->
  LongLong.rem (LongLong.add a b) m = ((a + b) mod m)%Z.
Proof.
  move=> Hm Ha Hb Hab.
  rewrite /LongLong.add wrap64_small; last by apply: rem_nonneg; lia.
  rewrite /LongLong.in_range /LongLong.LLONG_MIN /LongLong.LLONG_MAX; lia.
Qed.

(** The recursion on the bits of [exp] satisfies the equation of the
    [while] loop, with [exp & 1] and [exp >>= 1] of the source. *)
Lemma modPow_loop_unfold (e : positive) (result base m : Z) :
  modPow_loop e result base m
  = let result' :=
      if Z.eqb (Z.land (Zpos e) 1) 0 then result
      else LongLong.rem (LongLong.mul result base) m in
    let base' := LongLong.rem (LongLong.mul base base) m in
    match Z.shiftr (Zpos e) 1 with
    | Zpos e' => modPow_loop e' result' base' m
    | _ => result'
    end.
Proof. by case: e. Qed.

(** ** Base decoding *)

Section Decoding.

Local Open Scope Z_scope.

(** On the characters [0-9a-zA-Z] the value computed by the loop body is
    the digit value of the specification. *)
Lemma char_val_digit (ch : ascii) (d : Z) :
  digit_value ch = Some d -> char_val ch = d.
Proof.
  rewrite /digit_value /char_val /isdigit /tolower.
  move: (char_code ch) => c.
  repeat (case: Z.leb_spec => ? /=); try discriminate; move=> [<-]; lia.
Qed.

(** The accumulation [result = result * base + val] computes the
    positional value, whatever the digits and the base are. *)
Lemma decode_loop_positional (s : string) (base : Z) :
  forall (ds : seq Z) (acc : Z),
    string_digits s = Some ds ->
    decode_loop s base acc
    = acc * base ^ Z.of_nat (size ds) + positional_value base ds.
Proof.
  elim: s => [|ch s IH] ds acc /=.
    by move=> [<-] /=; lia.
  case Ech: (digit_value ch) => [d|] //.
  case Es: (string_digits s) => [ds'|] // [<-].
  rewrite (IH ds') // (char_val_digit Ech).
  have -> : size (d :: ds') = (size ds').+1 by [].
  have -> : positional_value base (d :: ds')
            = d * base ^ Z.of_nat (size ds') + positional_value base ds'
    by [].
  rewrite Nat2Z.inj_succ Z.pow_succ_r; first exact: Nat2Z.is_nonneg.
  ring.
Qed.

Lemma decode_positional (s : string) (base : Z) (ds : seq Z) :
  string_digits s = Some ds ->
  decodeBaseString s base = positional_value base ds.
Proof.
  by move=> Hs; rewrite /decodeBaseString (decode_loop_positional _ _ Hs).
Qed.

(** Decimal numerals: the characters printed for a numeral carry its
    digits, and their positional value in base ten is the numeral's
    value. *)
Lemma string_digits_uint (u : Decimal.uint) :
  string_digits (DecimalString.NilEmpty.string_of_uint u)
  = Some (uint_digits u).
Proof. by elim: u => [|u IH|u IH|u IH|u IH|u IH|u IH|u IH|u IH|u IH|u IH] //=;
  rewrite IH. Qed.

Lemma size_uint_digits (u : Decimal.uint) :
  Z.of_nat (size (uint_digits u)) = Z.of_N (DecimalPos.Unsigned.usize u).
Proof.
  elim: u => [|u IH|u IH|u IH|u IH|u IH|u IH|u IH|u IH|u IH|u IH] //;
  by rewrite [uint_digits _]/= [size _]/= [DecimalPos.Unsigned.usize _]/=
             Nat2Z.inj_succ N2Z.inj_succ IH.
Qed.

Lemma positional_value_cons (base d : Z) (ds : seq Z) :
  positional_value base (d :: ds)
  = d * base ^ Z.of_nat (size ds) + positional_value base ds.
Proof. by []. Qed.

Lemma positional_value_uint (u : Decimal.uint) :
  positional_value 10 (uint_digits u) = Z.of_uint u.
Proof.
  rewrite /Z.of_uint DecimalPos.Unsigned.of_uint_alt.
  elim: u => [|u IH|u IH|u IH|u IH|u IH|u IH|u IH|u IH|u IH|u IH] //;
  rewrite /Decimal.rev [Decimal.revapp _ _]/=
          DecimalPos.Unsigned.of_lu_revapp N2Z.inj_add N2Z.inj_mul
          N2Z.inj_pow -IH -size_uint_digits [uint_digits _]/=
          positional_value_cons;
  set k := Z.of_N (DecimalPos.Unsigned.of_lu _); vm_compute in k;
  rewrite {}/k; change (Z.of_N 10) with 10; ring.
Qed.

End Decoding.

(** ** Primality by trial division *)

Section TrialDivision.

Local Open Scope Z_scope.

Lemma no_divisor_from_sound (fuel : nat) :
  forall d n : Z,
    0 < d -> no_divisor_from fuel d n = true ->
    forall k : Z, d <= k -> k * k <= n -> ~ (k | n).
Proof.
  elim: fuel => [|fuel IH] d n Hd //=.
  case: Z.ltb_spec => [Hlt _ k Hk Hkk|Hge]; first by nia.
  case: Z.eqb_spec => [//|Hmod] Hrec k Hk Hkk.
  have [Heq|Hlt] : k = d \/ d + 1 <= k by lia.
    by rewrite Heq => /Zdivide_mod.
  by apply: (IH (d + 1) n) => //; lia.
Qed.

Lemma primeb_correct (n : Z) : primeb n = true -> prime n.
Proof.
  rewrite /primeb => /andP [/Z.ltb_spec0 Hn Hnd].
  have Hsmall := no_divisor_from_sound (d := 2) (n := n) ltac:(lia) Hnd.
  apply/prime_alt; split=> // k Hk [q Hq].
  have Hq1 : 1 < q by nia.
  have [Hkk|Hqq] : k * k <= n \/ q * q <= n by nia.
    by apply: (Hsmall k) => //; [lia | exists q].
  apply: (Hsmall q) => //; first by lia.
  by exists k; lia.
Qed.

End TrialDivision.

(** ** Lagrange interpolation over a field

    The points are the [n] pairwise distinct elements of [xs]; positions
    run over [iota 0 n], as the loops of the program do. *)

Section LagrangeIdentity.

Local Open Scope ring_scope.

Variable K : fieldType.
Variable xs : seq K.
Hypothesis xs_uniq : uniq xs.

Local Notation n := (size xs).
Local Notation x i := (nth 0 xs i).
Local Notation ell i := (\prod_(j <- iota 0 n | j != i) ('X - (x j)%:P)).
Local Notation d i := (\prod_(j <- iota 0 n | j != i) (x i - x j)).

Lemma lagrange_den_neq0 (i : nat) : (i < n)%nat -> d i != 0.
Proof.
  move=> Hi; rewrite prodf_seq_neq0; apply/allP => j.
  rewrite mem_iota add0n /= => Hj; apply/implyP => Hji.
  by rewrite subr_eq0 nth_uniq // eq_sym.
Qed.

Lemma lagrange_basis_sample (i k : nat) :
  (i < n)%nat -> (k < n)%nat ->
  (ell i).[x k] = if k == i then d i else 0.
Proof.
  move=> Hi Hk; rewrite horner_prod.
  under eq_bigr do rewrite hornerXsubC.
  case: eqP => [->|/eqP Hki] //.
  rewrite -big_filter (bigD1_seq k) /=.
  - by rewrite mem_filter Hki mem_iota.
  - by rewrite filter_uniq ?iota_uniq.
  - by rewrite subrr mul0r.
Qed.

Lemma size_lagrange_basis (i : nat) : (i < n)%nat -> (size (ell i) <= n)%nat.
Proof.
  move=> Hi; rewrite -big_filter size_prod_XsubC size_filter.
  have := count_size (fun j => j != i) (iota 0 n).
  rewrite size_iota leq_eqVlt => /orP [/eqP Hc|//].
  have : all (fun j => j != i) (iota 0 n) by rewrite all_count Hc size_iota.
  by move=> /allP /(_ i); rewrite mem_iota add0n eqxx => /(_ Hi).
Qed.

Variable f : {poly K}.
Hypothesis f_size : (size f <= n)%nat.

Lemma lagrange_expansion :
  f = \sum_(i <- iota 0 n) (f.[x i] / d i) *: ell i.
Proof.
  set L := \sum_(i <- _) _.
  apply/eqP; rewrite -subr_eq0; apply/negPn/negP => Hg.
  have Hroots : all (root (f - L)) xs.
    apply/allP => a /(nthP 0) [k Hk <-].
    rewrite rootE hornerD hornerN horner_sum.
    rewrite (bigD1_seq k) ?iota_uniq ?mem_iota //=.
    rewrite hornerZ lagrange_basis_sample // eqxx divfK ?lagrange_den_neq0 //.
    rewrite big_seq_cond big1 ?addr0 ?subrr // => i.
    rewrite mem_iota add0n /= => /andP [Hi Hik].
    by rewrite hornerZ lagrange_basis_sample // eq_sym (negbTE Hik) mulr0.
  have := max_poly_roots Hg Hroots xs_uniq.
  rewrite ltnNge => /negP; apply.
  apply: leq_trans (size_polyD _ _) _.
  rewrite size_polyN geq_max f_size /=.
  apply: leq_trans (size_sum _ _ _) _.
  apply/bigmax_leqP_seq => i; rewrite mem_iota add0n /= => Hi _.
  exact: leq_trans (size_scale_leq _ _) (size_lagrange_basis Hi).
Qed.

(** Lagrange interpolation at [0]. *)
Lemma lagrange_at_zero :
  \sum_(i <- iota 0 n)
     f.[x i] * (\prod_(j <- iota 0 n | j != i) (- x j)) * (d i)^-1
  = f.[0].
Proof.
  rewrite [in RHS]lagrange_expansion horner_sum.
  apply: eq_bigr => i _.
  rewrite hornerZ horner_prod mulrAC; congr (_ * _).
  by apply: eq_bigr => j _; rewrite hornerXsubC sub0r.
Qed.

End LagrangeIdentity.

(** ** The prime field of the modulus

    For a prime [m] the classes of the integers modulo [m] form the field
    ['F_p] with [p = Z.to_nat m]; [to_Fp p] is the reduction map. *)

Section PrimeField.

Variable m : Z.
Hypothesis m_prime : Znumtheory.prime m.

Let p : nat := Z.to_nat m.

Lemma modulus_gt1 : (1 < m)%Z.
Proof. by have := prime_ge_2 _ m_prime; lia. Qed.

Lemma of_nat_card : Z.of_nat p = m.
Proof. by rewrite /p Z2Nat.id //; have := modulus_gt1; lia. Qed.

Lemma card_prime : prime.prime p.
Proof.
  have Hm := modulus_gt1.
  apply/primeP; split.
    by apply/ltP; rewrite /p; lia.
  move=> d /dvdnP [k Hk].
  have Hdiv : (Z.of_nat d | m)%Z.
    by exists (Z.of_nat k); rewrite -of_nat_card Hk -multE Nat2Z.inj_mul.
  have := prime_divisors _ m_prime _ Hdiv.
  rewrite -of_nat_card.
  case=> [H|[H|[H|H]]]; try lia.
    by have -> : d = 1%nat by lia.
  have -> : d = p by lia.
  by rewrite eqxx orbT.
Qed.

Lemma card_gt1 : (1 < p)%nat.
Proof. exact: prime_gt1 card_prime. Qed.


Local Notation F := 'F_p.
Local Notation phi := (to_Fp p).

Local Open Scope ring_scope.

(** *** Natural numbers in the field *)

Lemma natrF_eq (n k : nat) :
  (n%:R == k%:R :> F) = (n == k %[mod p]).
Proof.
  by rewrite -val_eqE /= !(val_Fp_nat card_prime).
Qed.

Lemma natrF_inj (n k : nat) :
  (n < p)%nat -> (k < p)%nat -> n%:R = k%:R :> F -> n = k.
Proof.
  by move=> Hn Hk /eqP; rewrite natrF_eq !modn_small // => /eqP.
Qed.

(** *** Integers in the field *)

Lemma to_Fp_nonneg (z : Z) : (0 <= z)%Z -> phi z = (Z.to_nat z)%:R.
Proof.
  move=> Hz; have Hm := modulus_gt1.
  rewrite /to_Fp of_nat_card.
  have Hq : (0 <= z / m)%Z by apply: Z.div_pos; lia.
  have Hr : (0 <= z mod m < m)%Z by apply: Z.mod_pos_bound; lia.
  rewrite [in RHS](Z_div_mod_eq_full z m).
  have Hmq : (0 <= m * (z / m))%Z by apply: Z.mul_nonneg_nonneg; lia.
  rewrite Z2Nat.inj_add; try lia.
  rewrite Z2Nat.inj_mul; try lia.
  by rewrite plusE multE natrD natrM (pchar_Fp_0 card_prime) mul0r add0r.
Qed.

Lemma to_Fp_mod (z : Z) : phi (z mod m) = phi z.
Proof. by rewrite /to_Fp of_nat_card Zmod_mod. Qed.

Lemma to_Fp_add (a b : Z) : phi (a + b) = phi a + phi b.
Proof.
  have Hm := modulus_gt1.
  have Ha : (0 <= a mod m < m)%Z by apply: Z.mod_pos_bound; lia.
  have Hb : (0 <= b mod m < m)%Z by apply: Z.mod_pos_bound; lia.
  rewrite -(to_Fp_mod (a + b)) Zplus_mod to_Fp_mod.
  have H0 : (0 <= a mod m + b mod m)%Z by lia.
  rewrite (to_Fp_nonneg H0) Z2Nat.inj_add; try lia.
  by rewrite plusE natrD /to_Fp of_nat_card.
Qed.

Lemma to_Fp_mul (a b : Z) : phi (a * b) = phi a * phi b.
Proof.
  have Hm := modulus_gt1.
  have Ha : (0 <= a mod m < m)%Z by apply: Z.mod_pos_bound; lia.
  have Hb : (0 <= b mod m < m)%Z by apply: Z.mod_pos_bound; lia.
  rewrite -(to_Fp_mod (a * b)) Zmult_mod to_Fp_mod.
  have H0 : (0 <= a mod m * (b mod m))%Z by nia.
  rewrite (to_Fp_nonneg H0) Z2Nat.inj_mul; try lia.
  by rewrite multE natrM /to_Fp of_nat_card.
Qed.

Lemma to_Fp_0 : phi 0 = 0.
Proof. by rewrite to_Fp_nonneg. Qed.

Lemma to_Fp_1 : phi 1 = 1.
Proof. by rewrite to_Fp_nonneg. Qed.

Lemma to_Fp_modulus : phi m = 0.
Proof. by rewrite -to_Fp_mod Z_mod_same_full to_Fp_0. Qed.

Lemma to_Fp_sub (a b : Z) : phi (a - b) = phi a - phi b.
Proof.
  apply/eqP; rewrite eq_sym subr_eq -to_Fp_add; apply/eqP.
  by congr (phi _); lia.
Qed.

Lemma to_Fp_pow (a : Z) (n : nat) : phi (a ^ Z.of_nat n) = phi a ^+ n.
Proof.
  elim: n => [|n IH]; first by rewrite expr0 to_Fp_1.
  rewrite Nat2Z.inj_succ Z.pow_succ_r; first exact: Nat2Z.is_nonneg.
  by rewrite to_Fp_mul IH exprS.
Qed.

Lemma to_Fp_eq (a b : Z) : phi a = phi b -> (a mod m = b mod m)%Z.
Proof.
  have Hm := modulus_gt1.
  have Ha : (0 <= a mod m < m)%Z by apply: Z.mod_pos_bound; lia.
  have Hb : (0 <= b mod m < m)%Z by apply: Z.mod_pos_bound; lia.
  rewrite /to_Fp of_nat_card => /natrF_inj H.
  apply: Z2Nat.inj; try lia.
  by apply: H; apply/ltP; rewrite /p; lia.
Qed.

Lemma to_Fp_inj (a b : Z) :
  (0 <= a < m)%Z -> (0 <= b < m)%Z -> phi a = phi b -> a = b.
Proof.
  by move=> Ha Hb /to_Fp_eq; rewrite !Z.mod_small.
Qed.

Lemma to_Fp_eq0 (a : Z) : (0 <= a < m)%Z -> (phi a == 0) = (a =? 0)%Z.
Proof.
  move=> Ha; apply/eqP/Z.eqb_spec => [|->]; last exact: to_Fp_0.
  by rewrite -to_Fp_0 => /to_Fp_inj; apply; lia.
Qed.

(** *** Fermat's little theorem and inverses *)

Lemma Fp_expr_card (x : F) : x ^+ p = x.
Proof.
  rewrite -[x]natr_Zp -natrX; apply/eqP; rewrite natrF_eq; apply/eqP.
  exact: fermat_little card_prime.
Qed.

Lemma Fp_inv_expr (x : F) : x != 0 -> x ^+ (p - 2) = x^-1.
Proof.
  move=> Hx; have Hp := card_gt1.
  apply: (mulIf Hx); rewrite mulVf // -exprSr.
  apply: (mulIf Hx); rewrite mul1r -exprSr.
  have -> : (p - 2).+2 = p by rewrite -addn2 subnK.
  exact: Fp_expr_card.
Qed.

(** *** modPow when the square of [m - 1] fits in 64 bits *)

Section Exponentiation.

Hypothesis m_square : ((m - 1) * (m - 1) < 2 ^ 63)%Z.

Lemma mulmod_field (a b : Z) :
  (0 <= a < m)%Z -> (0 <= b < m)%Z ->
  let v := LongLong.rem (LongLong.mul a b) m in
  (0 <= v < m)%Z /\ phi v = phi a * phi b.
Proof.
  move=> Ha Hb; have Hm := modulus_gt1.
  have Hab : (a * b < 2 ^ 63)%Z by nia.
  rewrite /= mulmod_exact; try lia.
  split; first by apply: Z.mod_pos_bound; lia.
  by rewrite to_Fp_mod to_Fp_mul.
Qed.

Lemma modPow_loop_field (e : positive) :
  forall r b : Z,
    (0 <= r < m)%Z -> (0 <= b < m)%Z ->
    let v := modPow_loop e r b m in
    (0 <= v < m)%Z /\ phi v = phi r * phi b ^+ Pos.to_nat e.
Proof.
  elim: e => [e IH|e IH|] r b Hr Hb /=.
  - have [Hrb Erb] := mulmod_field Hr Hb.
    have [Hbb Ebb] := mulmod_field Hb Hb.
    have [Hv Ev] := IH _ _ Hrb Hbb.
    split=> //; rewrite Ev Erb Ebb Pos2Nat.inj_xI multE.
    by rewrite exprS mulrA -expr2 -exprM.
  - have [Hbb Ebb] := mulmod_field Hb Hb.
    have [Hv Ev] := IH _ _ Hr Hbb.
    split=> //; rewrite Ev Ebb Pos2Nat.inj_xO multE.
    by rewrite -expr2 -exprM.
  - have [Hrb Erb] := mulmod_field Hr Hb.
    by split=> //; rewrite Erb Pos2Nat.inj_1 expr1.
Qed.

Lemma modPow_field (d e : Z) :
  (0 <= d)%Z -> (0 <= e)%Z ->
  (0 <= modPow d e m < m)%Z /\ phi (modPow d e m) = phi d ^+ Z.to_nat e.
Proof.
  move=> Hd He; have Hm := modulus_gt1.
  case: e He => [|e|e] // _.
    by split; [rewrite /=; lia | rewrite /= expr0 to_Fp_1].
  have Hm0 : (0 < m)%Z by lia.
  rewrite /modPow (rem_nonneg Hd Hm0).
  have Hb : (0 <= d mod m < m)%Z by apply: Z.mod_pos_bound; lia.
  have [Hv Ev] := modPow_loop_field e (r := 1) ltac:(lia) Hb.
  by split=> //; rewrite Ev to_Fp_1 mul1r to_Fp_mod Z2Nat.inj_pos.
Qed.

Lemma to_nat_sub2 : Z.to_nat (m - 2) = (p - 2)%nat.
Proof. by rewrite Z2Nat.inj_sub //. Qed.

(** Fermat: the power [m - 2] is the inverse. *)
Lemma modPow_inverse (d : Z) :
  (1 <= d < m)%Z -> phi (modPow d (m - 2) m) = (phi d)^-1.
Proof.
  move=> Hd; have Hm := modulus_gt1.
  have [_ ->] := modPow_field (d := d) (e := m - 2) ltac:(lia) ltac:(lia).
  have Hd' : (0 <= d < m)%Z by lia.
  have Hnz : phi d != 0.
    by rewrite (to_Fp_eq0 Hd'); apply/negP => /Z.eqb_spec; lia.
  by rewrite to_nat_sub2 Fp_inv_expr.
Qed.

(** The same two facts on the integers. *)
Lemma modPow_exact (d e : Z) :
  (0 <= d)%Z -> (0 <= e)%Z -> modPow d e m = (d ^ e mod m)%Z.
Proof.
  move=> Hd He; have Hm := modulus_gt1.
  have [Hv Ev] := modPow_field Hd He.
  apply: to_Fp_inj => //; first by apply: Z.mod_pos_bound; lia.
  by rewrite Ev to_Fp_mod -to_Fp_pow Z2Nat.id.
Qed.

Lemma modPow_inverse_mod (d : Z) :
  (1 <= d < m)%Z -> ((d * modPow d (m - 2) m) mod m = 1)%Z.
Proof.
  move=> Hd; have Hm := modulus_gt1.
  have Hd' : (0 <= d < m)%Z by lia.
  have Hnz : phi d != 0.
    by rewrite (to_Fp_eq0 Hd'); apply/negP => /Z.eqb_spec; lia.
  have H1 : (1 mod m = 1)%Z by apply: Z.mod_small; lia.
  rewrite -[RHS]H1.
  by apply: to_Fp_eq; rewrite to_Fp_mul modPow_inverse // mulfV // to_Fp_1.
Qed.

End Exponentiation.

(** *** The loops of lagrangeInterpolation for a modulus below 2^31 *)

Section SmallModulus.

Hypothesis m_small : (m < 2 ^ 31)%Z.

Lemma modulus_square : ((m - 1) * (m - 1) < 2 ^ 63)%Z.
Proof. by have Hm := modulus_gt1; nia. Qed.

Section Interpolation.

Variable pts : seq point.
Hypothesis pts_field : field_points m pts.

Local Notation n := (size pts).
Local Notation xF j := (phi (point_x pts j)).
Local Notation yF j := (phi (point_y pts j)).

Lemma point_range (j : nat) :
  (j < n)%nat ->
  (1 <= point_x pts j < m)%Z /\ (0 <= point_y pts j)%Z.
Proof.
  move=> Hj; move/all_nthP: pts_field => /(_ (0, 0)%Z j Hj).
  rewrite /field_point /point_x /point_y.
  by move=> /andP [/andP [/Z.leb_spec0 H1 /Z.ltb_spec0 H2] /Z.leb_spec0 H3].
Qed.

(** A product of a residue and a factor below [2 * m]. *)
Lemma mulmod_wide (a b : Z) :
  (0 <= a < m)%Z -> (0 <= b < 2 * m)%Z ->
  let v := LongLong.rem (LongLong.mul a b) m in
  (0 <= v < m)%Z /\ phi v = phi a * phi b.
Proof.
  move=> Ha Hb; have Hm := modulus_gt1.
  have Hab : (a * b < 2 ^ 63)%Z by nia.
  have Hm0 : (0 < m)%Z by lia.
  have [Ha0 Hb0] : (0 <= a)%Z /\ (0 <= b)%Z by lia.
  rewrite /= (mulmod_exact Hm0 Ha0 Hb0 Hab).
  split; first exact: Z.mod_pos_bound.
  by rewrite to_Fp_mod to_Fp_mul.
Qed.

(** The inner loop: both accumulators stay in [[0, m)] and hold the
    products of the factors met so far. *)
Lemma inner_loop_field (i : nat) (js : seq nat) :
  (i < n)%nat -> all (fun j => (j < n)%nat) js ->
  forall num den : Z,
    (0 <= num < m)%Z -> (0 <= den < m)%Z ->
    let r := foldl (inner_step pts m i) (num, den) js in
    [/\ (0 <= r.1 < m)%Z, (0 <= r.2 < m)%Z,
        phi r.1 = phi num * \prod_(j <- js | j != i) (- xF j)
      & phi r.2 = phi den * \prod_(j <- js | j != i) (xF i - xF j)].
Proof.
  move=> Hi; have Hm := modulus_gt1.
  have [Hxi _] := point_range Hi.
  elim: js => [|j js IH] /=.
    by move=> _ num den Hnum Hden; rewrite !big_nil !mulr1.
  move=> /andP [Hj Hjs] num den Hnum Hden.
  have [Hxj _] := point_range Hj.
  rewrite !big_cons /inner_step [j == i]eq_sym.
  case: (i == j) => /=; first exact: IH.
  have -> : LongLong.sub m (point_x pts j) = (m - point_x pts j)%Z.
    by apply: sub_small; ll_range.
  have -> : LongLong.add (LongLong.sub (point_x pts i) (point_x pts j)) m
            = (point_x pts i - point_x pts j + m)%Z.
    have -> : LongLong.sub (point_x pts i) (point_x pts j)
              = (point_x pts i - point_x pts j)%Z.
      by apply: sub_small; ll_range.
    by apply: add_small; ll_range.
  have [Hnum' Enum'] :=
    mulmod_wide (a := num) (b := m - point_x pts j) Hnum ltac:(lia).
  have [Hden' Eden'] :=
    mulmod_wide (a := den) (b := point_x pts i - point_x pts j + m)
                Hden ltac:(lia).
  have [H1 H2 H3 H4] := IH Hjs _ _ Hnum' Hden'.
  split=> //.
    by rewrite H3 Enum' to_Fp_sub to_Fp_modulus sub0r mulrA.
  by rewrite H4 Eden' to_Fp_add to_Fp_sub to_Fp_modulus addr0 mulrA.
Qed.

Local Notation numF i := (\prod_(j <- iota 0 n | j != i) (- xF j)).
Local Notation denF i := (\prod_(j <- iota 0 n | j != i) (xF i - xF j)).
Local Notation termF i := (yF i * numF i * denF i ^+ (p - 2)).

Lemma all_iota_lt : all (fun j => (j < n)%nat) (iota 0 n).
Proof. by apply/allP => j; rewrite mem_iota add0n. Qed.

Lemma num_den_field (i : nat) :
  (i < n)%nat ->
  let r := num_den pts m i in
  [/\ (0 <= r.1 < m)%Z, (0 <= r.2 < m)%Z, phi r.1 = numF i
     & phi r.2 = denF i].
Proof.
  move=> Hi; have Hm := modulus_gt1.
  have H1 : (0 <= 1 < m)%Z by lia.
  have [Hn Hd En Ed] := inner_loop_field Hi all_iota_lt H1 H1.
  by split=> //; rewrite ?En ?Ed to_Fp_1 mul1r.
Qed.

Lemma lagrange_term_field (i : nat) :
  (i < n)%nat ->
  let t := lagrange_term pts m i in
  (0 <= t < m)%Z /\ phi t = termF i.
Proof.
  move=> Hi; have Hm := modulus_gt1.
  have [_ Hy] := point_range Hi.
  have [Hn Hd En Ed] := num_den_field Hi.
  rewrite /lagrange_term /=.
  have Hm0 : (0 < m)%Z by lia.
  rewrite (rem_nonneg Hy Hm0).
  have Hyi : (0 <= point_y pts i mod m < m)%Z by exact: Z.mod_pos_bound.
  have -> : LongLong.sub m 2 = (m - 2)%Z by apply: sub_small; ll_range.
  have [Hinv Einv] :=
    modPow_field modulus_square (d := (num_den pts m i).2) (e := m - 2)
                 ltac:(lia) ltac:(lia).
  have [Hyn Eyn] :=
    mulmod_wide (a := point_y pts i mod m) (b := (num_den pts m i).1)
                Hyi ltac:(lia).
  have Hinv2 : (0 <= modPow (num_den pts m i).2 (m - 2) m < 2 * m)%Z
    by lia.
  have [Ht Et] := mulmod_wide Hyn Hinv2.
  split=> //.
  by rewrite Et Eyn Einv to_Fp_mod En Ed to_nat_sub2.
Qed.

Lemma outer_loop_field (idx : seq nat) :
  all (fun i => (i < n)%nat) idx ->
  forall secret : Z,
    (0 <= secret < m)%Z ->
    let r := foldl (outer_step pts m) secret idx in
    (0 <= r < m)%Z /\ phi r = phi secret + \sum_(i <- idx) termF i.
Proof.
  have Hm := modulus_gt1.
  elim: idx => [|i idx IH] /=.
    by move=> _ secret Hs; rewrite big_nil addr0.
  move=> /andP [Hi Hidx] secret Hs.
  have [Ht Et] := lagrange_term_field Hi.
  have Hst : (0 <= outer_step pts m secret i < m)%Z
             /\ phi (outer_step pts m secret i) = phi secret + termF i.
    rewrite /outer_step.
    have Hm0 : (0 < m)%Z by lia.
    have Hsum : (secret + lagrange_term pts m i < 2 ^ 63)%Z by lia.
    have [Hs0 Ht0] : (0 <= secret)%Z /\ (0 <= lagrange_term pts m i)%Z
      by lia.
    rewrite (addmod_exact Hm0 Hs0 Ht0 Hsum).
    split; first exact: Z.mod_pos_bound.
    by rewrite to_Fp_mod to_Fp_add Et.
  have [Hr Er] := IH Hidx _ (proj1 Hst).
  by split=> //; rewrite Er (proj2 Hst) big_cons addrA.
Qed.

(** The returned value is a residue, and its class is the Lagrange sum
    with the power [p - 2] in the place of the inverse. *)
Lemma lagrange_field :
  (0 <= lagrangeInterpolation pts m < m)%Z
  /\ phi (lagrangeInterpolation pts m) = \sum_(i <- iota 0 n) termF i.
Proof.
  have Hm := modulus_gt1.
  have [Hr Er] := outer_loop_field all_iota_lt (secret := 0) ltac:(lia).
  by split=> //; rewrite Er to_Fp_0 add0r.
Qed.

(** *** Reconstruction of the constant term *)

Local Notation xsF := [seq phi z | z <- xs_of pts].

Lemma size_xsF : size xsF = n.
Proof. by rewrite !size_map. Qed.

Lemma nth_xs_of (j : nat) : (j < n)%nat -> nth 0%Z (xs_of pts) j = point_x pts j.
Proof. by move=> Hj; rewrite /xs_of (nth_map (0, 0)%Z). Qed.

Lemma nth_xsF (j : nat) : (j < n)%nat -> xsF`_j = xF j.
Proof.
  by move=> Hj; rewrite (nth_map 0%Z) ?size_map // nth_xs_of.
Qed.

Lemma uniq_xsF : uniq (xs_of pts) -> uniq xsF.
Proof.
  rewrite map_inj_in_uniq // => a b /(nthP 0%Z) [i Hi <-] /(nthP 0%Z) [j Hj <-].
  rewrite size_map in Hi; rewrite size_map in Hj.
  rewrite !nth_xs_of //.
  have [Hxi _] := point_range Hi; have [Hxj _] := point_range Hj.
  by apply: to_Fp_inj; lia.
Qed.

Lemma numF_xsF (i : nat) :
  numF i = \prod_(j <- iota 0 (size xsF) | j != i) (- xsF`_j).
Proof.
  rewrite size_xsF big_seq_cond [RHS]big_seq_cond.
  apply: eq_bigr => j /andP [Hj _].
  by rewrite nth_xsF //; move: Hj; rewrite mem_iota add0n.
Qed.

Lemma denF_xsF (i : nat) :
  (i < n)%nat ->
  denF i = \prod_(j <- iota 0 (size xsF) | j != i) (xsF`_i - xsF`_j).
Proof.
  move=> Hi; rewrite size_xsF big_seq_cond [RHS]big_seq_cond.
  apply: eq_bigr => j /andP [Hj _].
  by rewrite !nth_xsF //; move: Hj; rewrite mem_iota add0n.
Qed.

(** With pairwise distinct x-coordinates and share values on a
    polynomial of at most [n] coefficients, the Lagrange sum is the
    constant term. *)
Lemma lagrange_sum_interpolates (f : {poly F}) :
  uniq (xs_of pts) -> (size f <= n)%nat ->
  (forall i, (i < n)%nat -> yF i = f.[xF i]) ->
  \sum_(i <- iota 0 n) termF i = f.[0].
Proof.
  move=> Hu Hf Hy.
  have Hf' : (size f <= size xsF)%nat by rewrite size_xsF.
  rewrite -(lagrange_at_zero (uniq_xsF Hu) Hf') size_xsF.
  rewrite big_seq_cond [RHS]big_seq_cond.
  apply: eq_bigr => i /andP [Hi _].
  move: Hi; rewrite mem_iota add0n /= => Hi.
  have HN := numF_xsF i; have HD := denF_xsF Hi.
  have Hnz : denF i != 0.
    by rewrite HD lagrange_den_neq0 ?size_xsF // uniq_xsF.
  rewrite size_xsF in HN HD.
  by rewrite -HN -HD nth_xsF // -Hy // Fp_inv_expr.
Qed.

Lemma to_Fp_poly_eval (coeffs : seq Z) (z : Z) :
  phi (poly_eval coeffs z) = (Poly [seq phi a | a <- coeffs]).[phi z].
Proof.
  rewrite horner_Poly; elim: coeffs => [|a coeffs IH] /=.
    exact: to_Fp_0.
  by rewrite to_Fp_add to_Fp_mul IH addrC mulrC.
Qed.

Lemma to_Fp_constant_term (coeffs : seq Z) :
  (Poly [seq phi a | a <- coeffs]).[0] = phi (nth 0%Z coeffs 0).
Proof.
  rewrite horner_Poly; case: coeffs => [|a coeffs] /=.
    by rewrite to_Fp_0.
  by rewrite mulr0 add0r.
Qed.

Lemma lagrange_roundtrip_field (coeffs : seq Z) :
  uniq (xs_of pts) -> (size coeffs <= n)%nat ->
  (forall i, (i < n)%nat ->
     (point_y pts i mod m = poly_eval coeffs (point_x pts i) mod m)%Z) ->
  lagrangeInterpolation pts m = (nth 0%Z coeffs 0 mod m)%Z.
Proof.
  move=> Hu Hsz Hy; have Hm := modulus_gt1.
  have [Hr Er] := lagrange_field.
  apply: to_Fp_inj => //; first by apply: Z.mod_pos_bound; lia.
  rewrite Er to_Fp_mod -to_Fp_constant_term.
  apply: lagrange_sum_interpolates => //.
    by apply: leq_trans (size_Poly _) _; rewrite size_map.
  by move=> i Hi; rewrite -to_Fp_poly_eval -to_Fp_mod Hy // to_Fp_mod.
Qed.

(** *** The Lagrange sum over the points rather than the positions *)

Local Notation numV s q := (\prod_(r <- s | r.1 != q.1) (- phi r.1)).
Local Notation denV s q := (\prod_(r <- s | r.1 != q.1) (phi q.1 - phi r.1)).
Local Notation termV s q := (phi q.2 * numV s q * denV s q ^+ (p - 2)).

Lemma skip_position (i j : nat) :
  uniq (xs_of pts) -> (i < n)%nat -> (j < n)%nat ->
  ((nth (0, 0)%Z pts j).1 != (nth (0, 0)%Z pts i).1) = (j != i).
Proof.
  move=> Hu Hi Hj.
  by rewrite -(nth_uniq 0%Z _ _ Hu) ?size_map // !nth_xs_of.
Qed.

Lemma big_skip_position (R : Type) (idx : R) (op : Monoid.com_law idx)
    (G : point -> R) (i : nat) :
  uniq (xs_of pts) -> (i < n)%nat ->
  \big[op/idx]_(j <- iota 0 n | j != i) G (nth (0, 0)%Z pts j)
  = \big[op/idx]_(r <- pts | r.1 != (nth (0, 0)%Z pts i).1) G r.
Proof.
  move=> Hu Hi.
  rewrite [RHS](big_nth (0, 0)%Z) /index_iota subn0.
  rewrite big_seq_cond [RHS]big_seq_cond.
  apply: eq_bigl => j; rewrite mem_iota add0n /=.
  by case Hj: (j < n)%nat => //=; rewrite skip_position.
Qed.

Lemma lagrange_sum_by_value :
  uniq (xs_of pts) ->
  \sum_(i <- iota 0 n) termF i = \sum_(q <- pts) termV pts q.
Proof.
  move=> Hu.
  rewrite [RHS](big_nth (0, 0)%Z) /index_iota subn0.
  rewrite big_seq_cond [RHS]big_seq_cond.
  apply: eq_bigr => i /andP [Hi _].
  move: Hi; rewrite mem_iota add0n /= => Hi.
  rewrite -!(big_skip_position _ _ Hu Hi).
  by [].
Qed.

End Interpolation.

(** *** Order of the points *)

Section OrderIndependence.

Variables pts pts' : seq point.
Hypothesis pts_field : field_points m pts.
Hypothesis pts_uniq : uniq (xs_of pts).
Hypothesis pts_perm : perm_eq pts pts'.

Lemma perm_field_points : field_points m pts'.
Proof. by rewrite /field_points -(perm_all _ pts_perm). Qed.

Lemma perm_uniq_xs : uniq (xs_of pts').
Proof. by rewrite -(perm_uniq (perm_map _ pts_perm)). Qed.

Lemma lagrange_perm :
  lagrangeInterpolation pts m = lagrangeInterpolation pts' m.
Proof.
  have [H1 E1] := lagrange_field pts_field.
  have [H2 E2] := lagrange_field perm_field_points.
  apply: to_Fp_inj => //.
  rewrite E1 E2 (lagrange_sum_by_value pts_uniq).
  rewrite (lagrange_sum_by_value perm_uniq_xs).
  rewrite (perm_big _ pts_perm) /=.
  by apply: eq_bigr => q _; rewrite !(perm_big _ pts_perm).
Qed.

End OrderIndependence.

End SmallModulus.

End PrimeField.

(** ** Fixed behaviour of the loops: base 0, base 1, repeated x *)

Section Degenerate.

Local Open Scope Z_scope.

Variable m : Z.
Hypothesis m_gt1 : 1 < m.
Hypothesis m_fits : m <= LongLong.LLONG_MAX.

Lemma mul_zero_r (a : Z) : LongLong.mul a 0 = 0.
Proof. by rewrite /LongLong.mul Z.mul_0_r. Qed.

Lemma mul_zero_l (a : Z) : LongLong.mul 0 a = 0.
Proof. by rewrite /LongLong.mul Z.mul_0_l. Qed.

Lemma rem_zero : LongLong.rem 0 m = 0.
Proof. by rewrite /LongLong.rem Z.rem_0_l //; lia. Qed.

Lemma rem_small (a : Z) : 0 <= a < m -> LongLong.rem a m = a.
Proof. by move=> Ha; rewrite /LongLong.rem Z.rem_small. Qed.

Lemma rem_abs_bound (a : Z) : Z.abs (LongLong.rem a m) < m.
Proof.
  have := Z.rem_bound_abs a m ltac:(lia).
  by rewrite /LongLong.rem; lia.
Qed.

(** With base 0 every product is 0. *)
Lemma modPow_loop_zero (e : positive) :
  forall r : Z, modPow_loop e r 0 m = 0.
Proof.
  by elim: e => [e IH|e IH|] r /=; rewrite ?mul_zero_r ?rem_zero.
Qed.

Lemma modPow_zero (e : Z) : 0 < e -> modPow 0 e m = 0.
Proof.
  by case: e => [|e|e] // _; rewrite /modPow rem_zero modPow_loop_zero.
Qed.

(** With base 1 and [result = 1] every product is 1. *)
Lemma modPow_loop_one (e : positive) : modPow_loop e 1 1 m = 1.
Proof.
  have H1 : LongLong.rem (LongLong.mul 1 1) m = 1.
    have -> : LongLong.mul 1 1 = 1 by [].
    by apply: rem_small; lia.
  by elim: e => [e IH|e IH|] /=; rewrite ?H1.
Qed.

Lemma modPow_one (e : Z) : modPow 1 e m = 1.
Proof.
  case: e => [|e|e] //.
  by rewrite /modPow rem_small ?modPow_loop_one //; lia.
Qed.

Lemma sub_two : LongLong.sub m 2 = m - 2.
Proof. by apply: sub_small; move: m_fits; ll_range. Qed.

(** A single point: the value is the share reduced modulo [m]. *)
Lemma lagrange_single (x y : Z) :
  0 <= y -> lagrangeInterpolation [:: (x, y)] m = y mod m.
Proof.
  move=> Hy.
  have Hr : 0 <= y mod m < m by apply: Z.mod_pos_bound; lia.
  have Hmul : LongLong.mul (y mod m) 1 = y mod m.
    rewrite /LongLong.mul Z.mul_1_r; apply: wrap64_small.
    by move: m_fits; ll_range.
  have Hadd : LongLong.add 0 (y mod m) = y mod m.
    rewrite /LongLong.add Z.add_0_l; apply: wrap64_small.
    by move: m_fits; ll_range.
  have Hm0 : 0 < m by lia.
  rewrite /lagrangeInterpolation /= /outer_step /lagrange_term /num_den /=.
  rewrite /point_y /= (rem_nonneg Hy Hm0) modPow_one.
  by rewrite Hmul (rem_small Hr) Hmul (rem_small Hr) Hadd (rem_small Hr).
Qed.

Variable pts : seq point.

(** Every pass of the outer loop ends in [% mod]. *)
Lemma outer_loop_abs_bound (idx : seq nat) :
  forall secret : Z,
    Z.abs secret < m ->
    Z.abs (foldl (outer_step pts m) secret idx) < m.
Proof using m_gt1.
  elim: idx => [|i idx IH] secret Hs //=.
  by apply: IH; rewrite /outer_step; apply: rem_abs_bound.
Qed.

Lemma lagrange_abs_bound : Z.abs (lagrangeInterpolation pts m) < m.
Proof using m_gt1. by apply: outer_loop_abs_bound; lia. Qed.

Lemma inner_step_same (i : nat) (acc : Z * Z) :
  inner_step pts m i acc i = acc.
Proof. by rewrite /inner_step eqxx. Qed.

Lemma inner_step_other (i j : nat) (acc : Z * Z) :
  j != i ->
  inner_step pts m i acc j
  = (LongLong.rem
       (LongLong.mul acc.1 (LongLong.sub m (point_x pts j))) m,
     LongLong.rem
       (LongLong.mul acc.2
          (LongLong.add
             (LongLong.sub (point_x pts i) (point_x pts j)) m)) m).
Proof. by rewrite /inner_step eq_sym => /negbTE ->. Qed.

(** Once the denominator is 0 it stays 0. *)
Lemma inner_loop_zero (i : nat) (js : seq nat) :
  forall num : Z, (foldl (inner_step pts m i) (num, 0) js).2 = 0.
Proof.
  elim: js => [|j js IH] num //=.
  have [->|Hji] := eqVneq j i; first by rewrite inner_step_same.
  by rewrite inner_step_other //= mul_zero_l rem_zero.
Qed.

Hypothesis m_square : (m - 1) * (m - 1) < 2 ^ 63.

(** A position [j <> i] with the x-coordinate of position [i] brings the
    factor [m] into the denominator. *)
Lemma inner_loop_repeated (i : nat) (js : seq nat) :
  has (fun j => (j != i) && (point_x pts j == point_x pts i)) js ->
  forall num den : Z,
    Z.abs den < m ->
    (foldl (inner_step pts m i) (num, den) js).2 = 0.
Proof.
  elim: js => [|j js IH] //= /orP [/andP [Hji /eqP Hx]|Hjs] num den Hden.
  - rewrite inner_step_other //= Hx.
    have -> : LongLong.add
                (LongLong.sub (point_x pts i) (point_x pts i)) m = m.
      rewrite /LongLong.sub Z.sub_diag /LongLong.add.
      change (LongLong.wrap64 0) with 0; rewrite Z.add_0_l.
      by apply: wrap64_small; move: m_fits; ll_range.
    have Hbound : m <= 3037000500 by nia.
    have -> : LongLong.mul den m = den * m.
      by apply: wrap64_small; rewrite /LongLong.in_range
           /LongLong.LLONG_MIN /LongLong.LLONG_MAX; nia.
    have -> : LongLong.rem (den * m) m = 0.
      by rewrite /LongLong.rem Z.rem_mul //; lia.
    exact: inner_loop_zero.
  - have [->|Hji] := eqVneq j i; first by rewrite inner_step_same; apply: IH.
    by rewrite inner_step_other //; apply: IH => //; apply: rem_abs_bound.
Qed.

Lemma num_den_repeated (i : nat) :
  has (fun j => (j != i) && (point_x pts j == point_x pts i))
      (iota 0 (size pts)) ->
  (num_den pts m i).2 = 0.
Proof.
  by move=> H; apply: inner_loop_repeated => //; lia.
Qed.

Hypothesis m_gt2 : 2 < m.

(** A zero denominator has the "inverse" 0: the term is 0 and the
    accumulated secret does not change. *)
Lemma lagrange_term_zero_den (i : nat) :
  (num_den pts m i).2 = 0 -> lagrange_term pts m i = 0.
Proof.
  move=> Hden.
  have He : 0 < m - 2 by lia.
  by rewrite /lagrange_term Hden sub_two (modPow_zero He) mul_zero_r rem_zero.
Qed.

Lemma rem_small_abs (a : Z) : Z.abs a < m -> LongLong.rem a m = a.
Proof.
  move=> Ha; rewrite /LongLong.rem.
  have [Hpos|Hneg] : 0 <= a \/ a < 0 by lia.
    by apply: Z.rem_small; lia.
  have -> : a = - (- a) by lia.
  rewrite Z.rem_opp_l; first by lia.
  by rewrite Z.rem_small; lia.
Qed.

Lemma outer_step_zero_den (i : nat) (secret : Z) :
  (num_den pts m i).2 = 0 -> Z.abs secret < m ->
  outer_step pts m secret i = secret.
Proof.
  move=> Hden Hs.
  rewrite /outer_step lagrange_term_zero_den // /LongLong.add Z.add_0_r.
  rewrite wrap64_small; first by move: m_fits; ll_range.
  exact: rem_small_abs.
Qed.

End Degenerate.

(** * The claims of the specification *)

Section Claims.

Local Open Scope Z_scope.

(** ** BaseDecoder *)

(** C4 - Base-decoding correctness.  For every base in [2,36] and every
    string of characters [0-9a-zA-Z] whose digit values are all below the
    base, [decodeBaseString] returns the positional value
    [sum_i d_i * base^(L-1-i)], characters most significant first and
    letters case-insensitive, exactly for every length.  In particular
    "ff" in base 16 is 255, "111" in base 2 is 7, "z" in base 36 is 35,
    and the decimal string of any numeral decodes in base 10 to the value
    of that numeral. *)
Theorem decodeBaseString_positional :
  (forall (base : Z) (s : string) (ds : seq Z),
      2 <= base <= 36 ->
      string_digits s = Some ds ->
      all (fun d => d <? base) ds ->
      decodeBaseString s base = positional_value base ds)
  /\ decodeBaseString "ff" 16 = 255
  /\ decodeBaseString "FF" 16 = 255
  /\ decodeBaseString "111" 2 = 7
  /\ decodeBaseString "z" 36 = 35
  /\ (forall u : Decimal.uint,
        decodeBaseString (DecimalString.NilEmpty.string_of_uint u) 10
        = Z.of_uint u).
Proof.
  split; first by move=> base s ds _ Hs _; exact: decode_positional.
  do 4 (split; first by []).
  move=> u; rewrite (decode_positional _ (string_digits_uint u)).
  exact: positional_value_uint.
Qed.

Lemma decodeBaseString_positional_witness :
  decodeBaseString "7f" 16 = positional_value 16 [:: 7; 15].
Proof.
  apply (proj1 decodeBaseString_positional 16 "7f"%string [:: 7; 15]).
  - lia.
  - reflexivity.
  - reflexivity.
Defined.

(** C3 as the specification states it fails: ["9"] in base 2 has the digit
    value 9, which is not below the base, and the call returns 9 without
    any fault. *)
Lemma decode_invalid_digit_counterexample :
  2 <= 2 <= 36
  /\ string_digits "9" = Some [:: 9]
  /\ has (fun d => 2 <=? d) [:: 9]
  /\ decode "9" 2 = Returned 9
  /\ decode "9" 2 <> Faulted InvalidDigit.
Proof. by do 4 (split; first by []). Qed.

(** C3 (amended) - Invalid digits are not rejected.  For every base in
    [2,36] and every string of characters [0-9a-zA-Z] in which some digit
    value is greater than or equal to the base, [decode] raises no fault:
    it returns the integer [sum_i d_i * base^(L-1-i)], the out-of-range
    digit values taken as they are. *)
Theorem decode_invalid_digit_returns (base : Z) (s : string) (ds : seq Z) :
  2 <= base <= 36 ->
  string_digits s = Some ds ->
  has (fun d => base <=? d) ds ->
  decode s base = Returned (positional_value base ds).
Proof. by move=> _ Hs _; rewrite /decode (decode_positional _ Hs). Qed.

Lemma decode_invalid_digit_returns_witness :
  decode "12" 2 = Returned (positional_value 2 [:: 1; 2]).
Proof.
  apply (@decode_invalid_digit_returns 2 "12"%string [:: 1; 2]).
  - lia.
  - reflexivity.
  - reflexivity.
Defined.

(** C10 - Empty digit string.  For every base, [decodeBaseString] applied
    to the empty string returns 0, and the call ends in that value, not in
    a fault. *)
Theorem decodeBaseString_empty (base : Z) :
  decodeBaseString "" base = 0 /\ decode "" base = Returned 0.
Proof. by []. Qed.

(** ** Moduli used at concrete inputs *)

Lemma prime_2 : prime 2.
Proof. by apply: primeb_correct. Qed.

Lemma prime_5 : prime 5.
Proof. by apply: primeb_correct. Qed.

Lemma prime_7 : prime 7.
Proof. by apply: primeb_correct. Qed.

(** The modulus of [main]. *)
Lemma prime_1000000007 : prime 1000000007.
Proof. by apply: primeb_correct; vm_compute. Qed.

(** The least prime above [2^32]: a [long long] value whose square does
    not fit in 64 bits. *)
Lemma prime_4294967311 : prime 4294967311.
Proof. by apply: primeb_correct; vm_compute. Qed.

(** ** modPow *)

(** C6 as the specification states it fails: for the prime 4294967311 and
    [d = 2] the fifth squaring is [2^32 * 2^32], which wraps to 0 in 64
    bits; the result is 0 and is not an inverse of 2. *)
Lemma modPow_fermat_counterexample :
  prime 4294967311
  /\ LongLong.in_range 4294967311
  /\ 1 <= 2 < 4294967311
  /\ LongLong.mul 4294967296 4294967296 = 0
  /\ modPow 2 (4294967311 - 2) 4294967311 = 0
  /\ (2 * modPow 2 (4294967311 - 2) 4294967311) mod 4294967311 <> 1.
Proof.
  split; first exact: prime_4294967311.
  split; first by rewrite /LongLong.in_range; vm_compute; split; discriminate.
  split; first by lia.
  by split; [vm_compute | split; vm_compute].
Qed.

(** C6 (amended) - Fermat inverse.  For every prime modulus [m] such that
    the square of [m - 1] fits in a [long long] ([(m-1)^2 < 2^63]) and
    every [d] with [1 <= d < m], no intermediate product of [modPow]
    overflows: [modPow(d, m-2, m)] is exactly [d^(m-2) mod m] and is the
    modular inverse of [d], [(d * modPow(d, m-2, m)) mod m = 1]. *)
Theorem modPow_fermat_inverse (m d : Z) :
  prime m -> (m - 1) * (m - 1) < 2 ^ 63 -> 1 <= d < m ->
  (d * modPow d (m - 2) m) mod m = 1
  /\ modPow d (m - 2) m = d ^ (m - 2) mod m.
Proof.
  move=> Hp Hsq Hd; split; first exact: modPow_inverse_mod.
  have := prime_ge_2 _ Hp => Hm.
  by apply: modPow_exact => //; lia.
Qed.

Lemma modPow_fermat_inverse_witness :
  (3 * modPow 3 (7 - 2) 7) mod 7 = 1
  /\ modPow 3 (7 - 2) 7 = 3 ^ (7 - 2) mod 7.
Proof.
  apply (@modPow_fermat_inverse 7 3).
  - exact prime_7.
  - reflexivity.
  - lia.
Defined.

(** ** SecretReconstructor *)

(** C1 as the specification states it fails: for the prime 4294967311 the
    constant polynomial 5 sampled at [x = 1] and [x = 2] is not
    reconstructed; the products overflow 64 bits. *)
Lemma lagrange_roundtrip_counterexample :
  let m := 4294967311 in
  let coeffs := [:: 5] in
  let pts := [:: (1, 5); (2, 5)] in
  prime m /\ LongLong.in_range m
  /\ (size coeffs <= size pts)%nat
  /\ field_points m pts /\ uniq (xs_of pts)
  /\ (forall i, (i < size pts)%nat ->
        point_y pts i = poly_eval coeffs (point_x pts i) mod m)
  /\ lagrangeInterpolation pts m = 3414630100
  /\ lagrangeInterpolation pts m <> nth 0 coeffs 0.
Proof.
  split; first exact: prime_4294967311.
  split; first by rewrite /LongLong.in_range; vm_compute; split; discriminate.
  do 3 (split; first by []).
  split; first by case=> [|[|i]].
  by split; vm_compute.
Qed.

(** C1 (amended) - Round trip.  For every prime modulus [m < 2^31], every
    polynomial with at most [k] integer coefficients and constant term
    [c], and every list of [k] points with pairwise distinct
    x-coordinates in [[1, m)] whose share values are non-negative and
    congruent modulo [m] to the values of the polynomial,
    [lagrangeInterpolation] returns [c mod m]. *)
Theorem lagrange_roundtrip (m : Z) (coeffs : seq Z) (pts : seq point) :
  prime m -> m < 2 ^ 31 ->
  (size coeffs <= size pts)%nat ->
  field_points m pts -> uniq (xs_of pts) ->
  (forall i, (i < size pts)%nat ->
     point_y pts i mod m = poly_eval coeffs (point_x pts i) mod m) ->
  lagrangeInterpolation pts m = nth 0 coeffs 0 mod m.
Proof.
  move=> Hp Hm Hsz Hf Hu Hy.
  exact: (lagrange_roundtrip_field Hp Hm Hf Hu Hsz Hy).
Qed.

Lemma lagrange_roundtrip_witness :
  lagrangeInterpolation [:: (1, 4); (2, 7); (3, 12)] 7
  = nth 0 [:: 3; 0; 1] 0 mod 7.
Proof.
  apply (@lagrange_roundtrip 7 [:: 3; 0; 1] [:: (1, 4); (2, 7); (3, 12)]).
  - exact prime_7.
  - reflexivity.
  - reflexivity.
  - reflexivity.
  - reflexivity.
  - intros [|[|[|i]]] Hi; try reflexivity; discriminate Hi.
Defined.

(** C5 as the specification states it fails, in two ways: an
    x-coordinate above the modulus makes a factor negative (modulus 5,
    points (2,1) and (6,0): the value is -1), and for the prime
    4294967311 the products overflow (points (1,1) and (4,0)). *)
Lemma reconstruct_range_counterexample :
  (prime 5
   /\ all (fun pt : point => (0 <? pt.1) && (0 <=? pt.2))
          [:: (2, 1); (6, 0)]
   /\ lagrangeInterpolation [:: (2, 1); (6, 0)] 5 = -1)
  /\ (prime 4294967311
      /\ field_points 4294967311 [:: (1, 1); (4, 0)]
      /\ lagrangeInterpolation [:: (1, 1); (4, 0)] 4294967311
         = -2269314494).
Proof.
  split; first by split; [exact: prime_5 | split].
  split; first exact: prime_4294967311.
  by split; vm_compute.
Qed.

(** C5 (amended) - Range postcondition.  For every prime modulus
    [m < 2^31] and every non-empty sequence of points with x-coordinates
    in [[1, m)] and non-negative share values, [lagrangeInterpolation]
    returns an integer in [[0, m)]. *)
Theorem reconstruct_range (m : Z) (pts : seq point) :
  prime m -> m < 2 ^ 31 ->
  (0 < size pts)%nat -> field_points m pts ->
  0 <= lagrangeInterpolation pts m < m.
Proof. by move=> Hp Hm _ Hf; have [] := lagrange_field Hp Hm Hf. Qed.

Lemma reconstruct_range_witness :
  0 <= lagrangeInterpolation [:: (1, 4); (2, 7); (3, 12)] 7 < 7.
Proof.
  apply (@reconstruct_range 7 [:: (1, 4); (2, 7); (3, 12)]).
  - exact prime_7.
  - reflexivity.
  - reflexivity.
  - reflexivity.
Defined.

(** C7 as the specification states it fails, in two ways: with an
    x-coordinate above the modulus the terms have mixed signs and the
    truncating [%] makes the running sum depend on the order (modulus 5),
    and for the prime 4294967311 the products overflow differently in
    different orders. *)
Lemma reconstruct_order_counterexample :
  (prime 5
   /\ uniq (xs_of [:: (1, 1); (3, 1); (7, 1)])
   /\ perm_eq [:: (1, 1); (3, 1); (7, 1)] [:: (1, 1); (7, 1); (3, 1)]
   /\ lagrangeInterpolation [:: (1, 1); (3, 1); (7, 1)] 5 = 1
   /\ lagrangeInterpolation [:: (1, 1); (7, 1); (3, 1)] 5 = -4)
  /\ (prime 4294967311
      /\ field_points 4294967311 [:: (1, 0); (2, 1); (3, 0)]
      /\ uniq (xs_of [:: (1, 0); (2, 1); (3, 0)])
      /\ perm_eq [:: (1, 0); (2, 1); (3, 0)] [:: (2, 1); (3, 0); (1, 0)]
      /\ lagrangeInterpolation [:: (1, 0); (2, 1); (3, 0)] 4294967311
         = 2790344044
      /\ lagrangeInterpolation [:: (2, 1); (3, 0); (1, 0)] 4294967311
         = -101818295).
Proof.
  split; first by split; [exact: prime_5 | do 3 (split; first by [])].
  split; first exact: prime_4294967311.
  do 3 (split; first by []).
  by split; vm_compute.
Qed.

(** C7 (amended) - Order independence.  For every prime modulus
    [m < 2^31], every point list with pairwise distinct x-coordinates in
    [[1, m)] and non-negative share values, and every permutation of it,
    [lagrangeInterpolation] returns the same value on both lists. *)
Theorem reconstruct_order_independent (m : Z) (pts pts' : seq point) :
  prime m -> m < 2 ^ 31 ->
  field_points m pts -> uniq (xs_of pts) -> perm_eq pts pts' ->
  lagrangeInterpolation pts m = lagrangeInterpolation pts' m.
Proof. by move=> Hp Hm Hf Hu Hperm; exact: (lagrange_perm Hp Hm Hf Hu). Qed.

Lemma reconstruct_order_independent_witness :
  lagrangeInterpolation [:: (1, 4); (2, 7); (3, 12)] 7
  = lagrangeInterpolation [:: (3, 12); (1, 4); (2, 7)] 7.
Proof.
  apply (@reconstruct_order_independent 7).
  - exact prime_7.
  - reflexivity.
  - reflexivity.
  - reflexivity.
  - reflexivity.
Defined.

(** C8 - Boundary k = 1.  For every single point [(x, y)] with positive
    [x] and non-negative [y] of any size, and every prime modulus [m] (a
    [long long]), [lagrangeInterpolation] applied to the one-element list
    returns exactly [y mod m]. *)
Theorem reconstruct_single_point (m x y : Z) :
  prime m -> LongLong.in_range m -> 0 < x -> 0 <= y ->
  lagrangeInterpolation [:: (x, y)] m = y mod m.
Proof.
  move=> Hp [_ Hmax] _ Hy; have Hm := prime_ge_2 _ Hp.
  by apply: lagrange_single => //; lia.
Qed.

Lemma reconstruct_single_point_witness :
  lagrangeInterpolation [:: (3, 12)] 7 = 12 mod 7.
Proof.
  apply (@reconstruct_single_point 7 3 12).
  - exact prime_7.
  - split; discriminate.
  - reflexivity.
  - discriminate.
Defined.

(** C2 as the specification states it fails: the points (1,3) and (1,5)
    share their x-coordinate and the call returns 0, with no fault.  For
    the prime 4294967311 the denominators of the two positions that share
    x = 1 in (5,1),(1,1),(1,1) are not even 0: the product by the factor
    [mod] wraps in 64 bits. *)
Lemma reconstruct_degenerate_counterexample :
  (prime 7
   /\ has_duplicate_x [:: (1, 3); (1, 5)]
   /\ reconstruct [:: (1, 3); (1, 5)] 7 = Returned 0
   /\ reconstruct [:: (1, 3); (1, 5)] 7 <> Faulted DegenerateInterpolation)
  /\ (prime 4294967311
      /\ has_duplicate_x [:: (5, 1); (1, 1); (1, 1)]
      /\ xs_of [:: (5, 1); (1, 1); (1, 1)] = [:: 5; 1; 1]
      /\ (num_den [:: (5, 1); (1, 1); (1, 1)] 4294967311 1).2 = 4294967086
      /\ (num_den [:: (5, 1); (1, 1); (1, 1)] 4294967311 2).2 = 4294967086
      /\ reconstruct [:: (5, 1); (1, 1); (1, 1)] 4294967311
         = Returned (-1543702376)).
Proof.
  split; first by split; [exact: prime_7 | do 2 (split; first by [])].
  split; first exact: prime_4294967311.
  do 2 (split; first by []).
  by split; [vm_compute | split; vm_compute].
Qed.

(** C2 (amended) - Repeated x-coordinates are not rejected.  For every
    prime modulus [m] and every point list in which two points have equal
    x-coordinates, [reconstruct] raises no fault: it returns an integer
    strictly between [-m] and [m].  When [(m-1)^2 < 2^63] the zero
    denominator is really reached: two positions with equal x-coordinates
    both have the denominator 0. *)
Theorem reconstruct_degenerate_returns (m : Z) (pts : seq point) :
  prime m -> has_duplicate_x pts ->
  (exists v : Z, reconstruct pts m = Returned v /\ Z.abs v < m)
  /\ ((m - 1) * (m - 1) < 2 ^ 63 ->
      exists i j : nat,
        [/\ (i < j)%nat, (j < size pts)%nat,
            point_x pts i = point_x pts j,
            (num_den pts m i).2 = 0
          & (num_den pts m j).2 = 0]).
Proof.
  move=> Hp Hdup; have Hm := prime_ge_2 _ Hp.
  have Hm1 : 1 < m by lia.
  split.
    exists (lagrangeInterpolation pts m); split=> //.
    exact: lagrange_abs_bound.
  move=> Hsq.
  have Hfit : m <= LongLong.LLONG_MAX by rewrite /LongLong.LLONG_MAX; nia.
  move/(uniqPn 0): Hdup => [i [j [Hij Hj Hx]]].
  rewrite size_map in Hj.
  have Hi : (i < size pts)%nat by exact: ltn_trans Hij Hj.
  have Hxij : point_x pts i = point_x pts j.
    by rewrite /point_x -!(nth_map _ 0 fst) // -/(xs_of pts).
  have Hne : i != j by rewrite neq_ltn Hij.
  exists i, j; split=> //.
  - apply: num_den_repeated => //; apply/hasP; exists j.
      by rewrite mem_iota add0n.
    by rewrite eq_sym Hne Hxij eqxx.
  - apply: num_den_repeated => //; apply/hasP; exists i.
      by rewrite mem_iota add0n.
    by rewrite Hne Hxij eqxx.
Qed.

Lemma reconstruct_degenerate_returns_witness :
  (exists v : Z,
     reconstruct [:: (1, 3); (1, 5); (2, 4)] 7 = Returned v /\ Z.abs v < 7)
  /\ ((7 - 1) * (7 - 1) < 2 ^ 63 ->
      exists i j : nat,
        [/\ (i < j)%nat, (j < size [:: (1, 3); (1, 5); (2, 4)])%nat,
            point_x [:: (1, 3); (1, 5); (2, 4)] i
            = point_x [:: (1, 3); (1, 5); (2, 4)] j,
            (num_den [:: (1, 3); (1, 5); (2, 4)] 7 i).2 = 0
          & (num_den [:: (1, 3); (1, 5); (2, 4)] 7 j).2 = 0]).
Proof.
  apply (@reconstruct_degenerate_returns 7 [:: (1, 3); (1, 5); (2, 4)]).
  - exact prime_7.
  - reflexivity.
Defined.

(** C9 as the implicit claim states it fails.  For the prime 2 the
    exponent [m - 2] is 0, the loop of [modPow] does not run and
    [modPow(0, 0, 2)] is 1; the term of the point (1,1), whose denominator
    is 0, is 1 and reaches the secret.  For the prime 4294967311 the
    position 0 of (1,1),(5,1),(1,1) shares its x-coordinate with position
    2 and yet its denominator is not 0 (the product by the factor [mod]
    wraps in 64 bits); its term is not 0 either. *)
Lemma zero_denominator_counterexample :
  (prime 2
   /\ has_duplicate_x [:: (1, 1); (1, 0)]
   /\ (num_den [:: (1, 1); (1, 0)] 2 0).2 = 0
   /\ modPow 0 (2 - 2) 2 = 1
   /\ lagrange_term [:: (1, 1); (1, 0)] 2 0 = 1
   /\ lagrangeInterpolation [:: (1, 1); (1, 0)] 2 = 1)
  /\ (prime 4294967311
      /\ LongLong.in_range 4294967311
      /\ point_x [:: (1, 1); (5, 1); (1, 1)] 0
         = point_x [:: (1, 1); (5, 1); (1, 1)] 2
      /\ (num_den [:: (1, 1); (5, 1); (1, 1)] 4294967311 0).2 = 4294967086
      /\ lagrange_term [:: (1, 1); (5, 1); (1, 1)] 4294967311 0
         = -771851188).
Proof.
  split; first by split; [exact: prime_2 | do 4 (split; first by [])].
  split; first exact: prime_4294967311.
  split; first by rewrite /LongLong.in_range; vm_compute; split; discriminate.
  split; first by [].
  by split; vm_compute.
Qed.

(** C9 (amended) - Totality on repeated x-coordinates.  For every odd
    prime modulus [m] (a [long long]) and every point list,
    [lagrangeInterpolation] returns a value, strictly between [-m] and
    [m] (no fault); [modPow(0, m-2, m)] is 0, so at every position whose
    denominator is 0 the term is 0 and the accumulated secret, whatever
    value the loop has reached, is left unchanged; and when
    [(m-1)^2 < 2^63] every position whose x-coordinate occurs at another
    position has the denominator 0. *)
Theorem zero_denominator_contributes_zero (m : Z) (pts : seq point) :
  prime m -> 2 < m -> LongLong.in_range m ->
  (exists v : Z, reconstruct pts m = Returned v /\ Z.abs v < m)
  /\ modPow 0 (m - 2) m = 0
  /\ (forall i : nat,
        (num_den pts m i).2 = 0 ->
        lagrange_term pts m i = 0
        /\ (forall secret : Z,
              Z.abs secret < m -> outer_step pts m secret i = secret))
  /\ ((m - 1) * (m - 1) < 2 ^ 63 ->
      forall i j : nat,
        (i < size pts)%nat -> (j < size pts)%nat -> i <> j ->
        point_x pts i = point_x pts j ->
        (num_den pts m i).2 = 0).
Proof.
  move=> Hp Hm [_ Hfit].
  have Hm1 : 1 < m by lia.
  split.
    exists (lagrangeInterpolation pts m); split=> //.
    exact: lagrange_abs_bound.
  split; first by apply: modPow_zero; lia.
  split.
    move=> i Hden; split; first exact: lagrange_term_zero_den.
    by move=> secret Hs; apply: outer_step_zero_den.
  move=> Hsq i j Hi Hj Hij Hx; apply: num_den_repeated => //.
  apply/hasP; exists j; first by rewrite mem_iota add0n.
  by rewrite Hx eqxx andbT; apply/eqP => Hji; apply: Hij.
Qed.

Lemma zero_denominator_contributes_zero_witness :
  (exists v : Z,
     reconstruct [:: (1, 3); (1, 5); (2, 4)] 7 = Returned v /\ Z.abs v < 7)
  /\ modPow 0 (7 - 2) 7 = 0
  /\ (forall i : nat,
        (num_den [:: (1, 3); (1, 5); (2, 4)] 7 i).2 = 0 ->
        lagrange_term [:: (1, 3); (1, 5); (2, 4)] 7 i = 0
        /\ (forall secret : Z,
              Z.abs secret < 7 ->
              outer_step [:: (1, 3); (1, 5); (2, 4)] 7 secret i = secret))
  /\ ((7 - 1) * (7 - 1) < 2 ^ 63 ->
      forall i j : nat,
        (i < size [:: (1, 3); (1, 5); (2, 4)])%nat ->
        (j < size [:: (1, 3); (1, 5); (2, 4)])%nat -> i <> j ->
        point_x [:: (1, 3); (1, 5); (2, 4)] i
        = point_x [:: (1, 3); (1, 5); (2, 4)] j ->
        (num_den [:: (1, 3); (1, 5); (2, 4)] 7 i).2 = 0).
Proof.
  apply (@zero_denominator_contributes_zero 7 [:: (1, 3); (1, 5); (2, 4)]).
  - exact prime_7.
  - reflexivity.
  - split; discriminate.
Defined.

End Claims.
(** * Further properties of the code *)

(** ** decodeBaseString *)

Section DecodingMore.

Local Open Scope Z_scope.

Lemma decode_loop_append (s1 s2 : string) (base : Z) :
  forall acc : Z,
    decode_loop (s1 ++ s2) base acc
    = decode_loop s2 base (decode_loop s1 base acc).
Proof. by elim: s1 => [|ch s1 IH] acc //=. Qed.

(** The loop is affine in its accumulator. *)
Lemma decode_loop_shift (s : string) (base : Z) :
  forall acc : Z,
    decode_loop s base acc
    = acc * base ^ Z.of_nat (String.length s) + decode_loop s base 0.
Proof.
  elim: s => [|ch s IH] acc; first by rewrite /=; lia.
  rewrite [String.length _]/= Nat2Z.inj_succ Z.pow_succ_r;
    first exact: Nat2Z.is_nonneg.
  rewrite /= (IH (acc * base + char_val ch)) (IH (0 * base + char_val ch)).
  ring.
Qed.

(** X1 - Concatenation.  For every base and all strings [s1], [s2] (any
    characters), decoding [s1 ++ s2] gives the value of [s1] shifted by
    the length of [s2] plus the value of [s2]. *)
Theorem decodeBaseString_append (s1 s2 : string) (base : Z) :
  decodeBaseString (s1 ++ s2) base
  = decodeBaseString s1 base * base ^ Z.of_nat (String.length s2)
    + decodeBaseString s2 base.
Proof.
  by rewrite /decodeBaseString decode_loop_append decode_loop_shift.
Qed.

Lemma digit_value_range (ch : ascii) (d : Z) :
  digit_value ch = Some d -> 0 <= d <= 35.
Proof.
  rewrite /digit_value.
  move: (char_code ch) => c.
  repeat (case: Z.leb_spec => ? /=); try discriminate; move=> [<-]; lia.
Qed.

Lemma string_digits_size (s : string) (ds : seq Z) :
  string_digits s = Some ds -> size ds = String.length s.
Proof.
  elim: s ds => [|ch s IH] ds /=; first by move=> [<-].
  case: (digit_value ch) => [d|] //.
  by case Es: (string_digits s) => [ds'|] // [<-] /=; rewrite (IH ds').
Qed.

Lemma string_digits_nonneg (s : string) (ds : seq Z) :
  string_digits s = Some ds -> all (fun d => 0 <=? d) ds.
Proof.
  elim: s ds => [|ch s IH] ds /=; first by move=> [<-].
  case Ech: (digit_value ch) => [d|] //.
  case Es: (string_digits s) => [ds'|] // [<-] /=.
  rewrite (IH ds') // andbT; apply/Z.leb_spec0.
  by have := digit_value_range Ech; lia.
Qed.

Lemma positional_value_bound (base : Z) (ds : seq Z) :
  0 < base ->
  all (fun d => 0 <=? d) ds -> all (fun d => d <? base) ds ->
  0 <= positional_value base ds < base ^ Z.of_nat (size ds).
Proof.
  move=> Hb; elim: ds => [|d ds IH]; first by rewrite /=; lia.
  move=> Hnn Hlt.
  have /andP [/Z.leb_spec0 Hd0 H0] := Hnn.
  have /andP [/Z.ltb_spec0 Hd H1] := Hlt.
  have {IH} IH := IH H0 H1.
  rewrite positional_value_cons.
  have -> : size (d :: ds) = (size ds).+1 by [].
  rewrite Nat2Z.inj_succ Z.pow_succ_r; first exact: Nat2Z.is_nonneg.
  have Hp : 0 < base ^ Z.of_nat (size ds).
    by apply: Z.pow_pos_nonneg => //; exact: Nat2Z.is_nonneg.
  by nia.
Qed.

(** X2 - Magnitude.  For every base >= 1 and every string of [L]
    characters [0-9a-zA-Z] whose digit values are below the base, the
    decoded value is non-negative and below [base^L]. *)
Theorem decodeBaseString_bound (s : string) (base : Z) (ds : seq Z) :
  0 < base ->
  string_digits s = Some ds ->
  all (fun d => d <? base) ds ->
  0 <= decodeBaseString s base < base ^ Z.of_nat (String.length s).
Proof.
  move=> Hb Hs Hlt.
  rewrite (decode_positional _ Hs) -(string_digits_size Hs).
  by apply: positional_value_bound => //; exact: string_digits_nonneg Hs.
Qed.

Lemma decodeBaseString_bound_witness :
  0 <= decodeBaseString "7f" 16 < 16 ^ Z.of_nat (String.length "7f").
Proof.
  apply (@decodeBaseString_bound "7f"%string 16 [:: 7; 15]).
  - reflexivity.
  - reflexivity.
  - reflexivity.
Defined.

Lemma char_val_tolower (ch ch' : ascii) :
  tolower ch = tolower ch' -> char_val ch = char_val ch'.
Proof.
  rewrite /char_val /isdigit /tolower.
  move: (char_code ch) (char_code ch') => c c'.
  by repeat (case: Z.leb_spec => ? /=); lia.
Qed.

(** X3 - Case of the letters.  Two strings of the same length whose
    characters agree after [tolower] decode to the same value, in every
    base. *)
Theorem decodeBaseString_case_insensitive (s s' : string) (base : Z) :
  same_up_to_case s s' ->
  decodeBaseString s base = decodeBaseString s' base.
Proof.
  rewrite /decodeBaseString; move: 0.
  elim: s s' => [|ch s IH] [|ch' s'] acc //=.
  move=> /andP [/Z.eqb_spec Hch Hs].
  by rewrite (char_val_tolower Hch); apply: IH.
Qed.

Lemma decodeBaseString_case_insensitive_witness :
  decodeBaseString "1aBz" 36 = decodeBaseString "1AbZ" 36.
Proof.
  apply (@decodeBaseString_case_insensitive "1aBz"%string "1AbZ"%string 36).
  reflexivity.
Defined.

Lemma positional_value_inj (base : Z) (ds ds' : seq Z) :
  0 < base -> size ds = size ds' ->
  all (fun d => 0 <=? d) ds -> all (fun d => d <? base) ds ->
  all (fun d => 0 <=? d) ds' -> all (fun d => d <? base) ds' ->
  positional_value base ds = positional_value base ds' -> ds = ds'.
Proof.
  move=> Hb; elim: ds ds' => [|d ds IH] [|d' ds'] // [Hsz] Hnn Hlt Hnn' Hlt'.
  have /andP [/Z.leb_spec0 Hd0 H0] := Hnn.
  have /andP [/Z.ltb_spec0 Hd H1] := Hlt.
  have /andP [/Z.leb_spec0 Hd0' H0'] := Hnn'.
  have /andP [/Z.ltb_spec0 Hd' H1'] := Hlt'.
  have Hv := positional_value_bound Hb H0 H1.
  have Hv' := positional_value_bound Hb H0' H1'.
  rewrite !positional_value_cons -Hsz.
  rewrite -Hsz in Hv'.
  move: Hv Hv'; set P := base ^ _; set v := positional_value base ds.
  set v' := positional_value base ds' => Hv Hv' Heq.
  have Hdd : d = d' by nia.
  have Hvv : v = v' by nia.
  by rewrite Hdd (IH ds').
Qed.

(** X4 - Injectivity.  In a base >= 1, two strings of the same length over
    [0-9a-zA-Z] whose digit values are below the base and which decode to
    the same value have the same digit values, position by position. *)
Theorem decodeBaseString_injective (s s' : string) (base : Z)
    (ds ds' : seq Z) :
  0 < base ->
  String.length s = String.length s' ->
  string_digits s = Some ds -> all (fun d => d <? base) ds ->
  string_digits s' = Some ds' -> all (fun d => d <? base) ds' ->
  decodeBaseString s base = decodeBaseString s' base ->
  ds = ds'.
Proof.
  move=> Hb Hlen Hs Hlt Hs' Hlt'.
  rewrite (decode_positional _ Hs) (decode_positional _ Hs').
  apply: positional_value_inj => //.
  - by rewrite (string_digits_size Hs) (string_digits_size Hs').
  - exact: string_digits_nonneg Hs.
  - exact: string_digits_nonneg Hs'.
Qed.

Lemma decodeBaseString_injective_witness : [:: 10; 15] = [:: 10; 15].
Proof.
  apply (@decodeBaseString_injective "af"%string "AF"%string 16).
  - reflexivity.
  - reflexivity.
  - reflexivity.
  - reflexivity.
  - reflexivity.
  - reflexivity.
  - reflexivity.
Defined.

End DecodingMore.

(** ** modPow for any modulus *)

Section ModPowMore.

Local Open Scope Z_scope.

Variable m : Z.
Hypothesis m_pos : 0 < m.

Lemma rem_congr (a : Z) : (LongLong.rem a m) mod m = a mod m.
Proof.
  rewrite /LongLong.rem Z.rem_eq; first by lia.
  have -> : a - m * (a ÷ m) = a + (- (a ÷ m)) * m by ring.
  exact: Z_mod_plus_full.
Qed.

Lemma rem_abs (a : Z) : Z.abs (LongLong.rem a m) < m.
Proof.
  have := Z.rem_bound_abs a m ltac:(lia).
  by rewrite /LongLong.rem; lia.
Qed.

Lemma rem_sign (a : Z) : 0 <= a -> 0 <= LongLong.rem a m.
Proof.
  move=> Ha; rewrite (rem_nonneg Ha m_pos).
  by have := Z.mod_pos_bound a m m_pos; lia.
Qed.

Hypothesis m_square : (m - 1) * (m - 1) < 2 ^ 63.

(** A product of two values that are residues, or the initial 1. *)
Lemma mulmod_congr (a b : Z) :
  Z.abs a < m \/ a = 1 -> Z.abs b < m ->
  let v := LongLong.rem (LongLong.mul a b) m in
  [/\ Z.abs v < m, v mod m = (a * b) mod m & 0 <= a -> 0 <= b -> 0 <= v].
Proof.
  move=> Ha Hb.
  have Hbound : m <= 3037000500 by nia.
  have -> : LongLong.mul a b = a * b.
    apply: wrap64_small.
    rewrite /LongLong.in_range /LongLong.LLONG_MIN /LongLong.LLONG_MAX.
    by case: Ha => [Ha|->]; nia.
  split; [exact: rem_abs | exact: rem_congr |].
  by move=> Ha0 Hb0; apply: rem_sign; nia.
Qed.

Lemma pow_congr (a b : Z) (e : Z) :
  a mod m = b mod m -> (a ^ e) mod m = (b ^ e) mod m.
Proof.
  by move=> Hab; rewrite (Zpower_mod a) // Hab -Zpower_mod.
Qed.

Lemma modPow_loop_congr (e : positive) :
  forall r b : Z,
    Z.abs r < m \/ r = 1 -> Z.abs b < m ->
    [/\ Z.abs (modPow_loop e r b m) < m,
        (modPow_loop e r b m) mod m = (r * b ^ Zpos e) mod m
      & 0 <= r -> 0 <= b -> 0 <= modPow_loop e r b m].
Proof.
  elim: e => [e IH|e IH|] r b Hr Hb; rewrite ![modPow_loop _ _ _ _]/=.
  - have [Hrb Erb Srb] := mulmod_congr Hr Hb.
    have [Hbb Ebb Sbb] := mulmod_congr (or_introl Hb) Hb.
    have [Hv Ev Sv] := IH _ _ (or_introl Hrb) Hbb.
    split=> //; last by move=> Hr0 Hb0; apply: Sv; [apply: Srb|apply: Sbb].
    rewrite Ev Zmult_mod Erb (pow_congr (Z.pos e) Ebb) -Zmult_mod.
    congr (_ mod m); rewrite Pos2Z.inj_xI Z.pow_add_r // Z.pow_mul_r //.
    by rewrite Z.pow_2_r Z.pow_1_r; ring.
  - have [Hbb Ebb Sbb] := mulmod_congr (or_introl Hb) Hb.
    have [Hv Ev Sv] := IH _ _ Hr Hbb.
    split=> //; last by move=> Hr0 Hb0; apply: Sv => //; apply: Sbb.
    rewrite Ev Zmult_mod (pow_congr (Z.pos e) Ebb) -Zmult_mod.
    congr (_ mod m); rewrite Pos2Z.inj_xO Z.pow_mul_r //.
    by rewrite Z.pow_2_r.
  - have [Hrb Erb Srb] := mulmod_congr Hr Hb.
    by split=> //; rewrite Erb Z.pow_1_r.
Qed.

Lemma modPow_congr (b e : Z) :
  0 < e ->
  [/\ Z.abs (modPow b e m) < m,
      (modPow b e m) mod m = (b ^ e) mod m
    & 0 <= b -> modPow b e m = (b ^ e) mod m].
Proof.
  case: e => [|e|e] // _; rewrite /modPow.
  have [Hv Ev Sv] :=
    modPow_loop_congr e (r := 1) (or_intror (erefl 1)) (rem_abs b).
  have Eb : (1 * LongLong.rem b m ^ Z.pos e) mod m = (b ^ Z.pos e) mod m.
    by rewrite Z.mul_1_l; apply: pow_congr; exact: rem_congr.
  split=> //; first by rewrite Ev.
  move=> Hb; rewrite -Eb -Ev Z.mod_small //.
  by have := Sv ltac:(lia) (rem_sign Hb); lia.
Qed.

End ModPowMore.

(** X5 - modPow for any modulus.  For every modulus [m >= 1], prime or
    not, whose [(m-1)^2] fits in a [long long], every [base] (negative
    ones too) and every [exp >= 1]: [modPow(base, exp, m)] lies strictly
    between [-m] and [m] and is congruent to [base^exp] modulo [m]; for a
    non-negative [base] it is exactly [base^exp mod m]. *)
Theorem modPow_any_modulus (m b e : Z) :
  (0 < m)%Z -> ((m - 1) * (m - 1) < 2 ^ 63)%Z -> (0 < e)%Z ->
  (Z.abs (modPow b e m) < m)%Z
  /\ ((modPow b e m) mod m = (b ^ e) mod m)%Z
  /\ ((0 <= b)%Z -> modPow b e m = (b ^ e mod m)%Z).
Proof.
  by move=> Hm Hsq He; have [H1 H2 H3] := modPow_congr Hm Hsq b He.
Qed.

Lemma modPow_any_modulus_witness :
  (Z.abs (modPow (-3) 5 10) < 10)%Z
  /\ ((modPow (-3) 5 10) mod 10 = ((-3) ^ 5) mod 10)%Z
  /\ ((0 <= -3)%Z -> modPow (-3) 5 10 = ((-3) ^ 5 mod 10)%Z).
Proof.
  apply (@modPow_any_modulus 10 (-3) 5).
  - reflexivity.
  - reflexivity.
  - reflexivity.
Defined.

(** ** What holds even when products overflow *)

Section Unconditional.

Local Open Scope Z_scope.

Variable m : Z.
Hypothesis m_pos : 0 < m.

Lemma modPow_loop_abs (e : positive) :
  forall r b : Z, Z.abs (modPow_loop e r b m) < m.
Proof.
  by elim: e => [e IH|e IH|] r b /=; rewrite ?IH //; apply: rem_abs.
Qed.

Lemma outer_loop_abs (pts : seq point) (idx : seq nat) :
  forall secret : Z,
    Z.abs secret < m ->
    Z.abs (foldl (outer_step pts m) secret idx) < m.
Proof.
  elim: idx => [|i idx IH] secret Hs //=.
  by apply: IH; rewrite /outer_step; apply: rem_abs.
Qed.

(** Share values enter a term only through [y % mod]; the x-coordinates
    alone decide the numerator and the denominator. *)
Lemma point_x_nth (pts : seq point) (j : nat) :
  point_x pts j = nth 0 (xs_of pts) j.
Proof.
  rewrite /point_x /xs_of.
  by elim: pts j => [|pt pts IH] [|j] //=; rewrite nth_nil.
Qed.

Lemma foldl_ext (A B : Type) (f g : A -> B -> A) (s : seq B) :
  (forall a x, f a x = g a x) ->
  forall a : A, foldl f a s = foldl g a s.
Proof. by move=> Hfg; elim: s => [|x s IH] a //=; rewrite Hfg IH. Qed.

Lemma num_den_xs (pts pts' : seq point) (i : nat) :
  xs_of pts = xs_of pts' -> num_den pts m i = num_den pts' m i.
Proof.
  move=> Hxs.
  have Hsz : size pts = size pts'.
    by rewrite -(size_map fst pts) -(size_map fst pts') -/(xs_of _) Hxs.
  rewrite /num_den Hsz; apply: foldl_ext => acc j.
  by rewrite /inner_step !point_x_nth Hxs.
Qed.

Lemma foldl_ext_in (A : Type) (f g : A -> nat -> A) (s : seq nat) :
  (forall a x, x \in s -> f a x = g a x) ->
  forall a : A, foldl f a s = foldl g a s.
Proof.
  elim: s => [|x s IH] Hfg a //=.
  rewrite Hfg ?mem_head // IH // => b y Hy.
  by apply: Hfg; rewrite in_cons Hy orbT.
Qed.

Lemma lagrange_term_residue (pts pts' : seq point) (i : nat) :
  xs_of pts = xs_of pts' ->
  0 <= point_y pts i -> 0 <= point_y pts' i ->
  point_y pts i mod m = point_y pts' i mod m ->
  lagrange_term pts m i = lagrange_term pts' m i.
Proof.
  move=> Hxs Hy Hy' Hmod.
  rewrite /lagrange_term (num_den_xs i Hxs).
  by rewrite (rem_nonneg Hy m_pos) (rem_nonneg Hy' m_pos) Hmod.
Qed.

Lemma lagrange_residues (pts pts' : seq point) :
  xs_of pts = xs_of pts' ->
  (forall i, (i < size pts)%nat ->
     [/\ 0 <= point_y pts i, 0 <= point_y pts' i
        & point_y pts i mod m = point_y pts' i mod m]) ->
  lagrangeInterpolation pts m = lagrangeInterpolation pts' m.
Proof.
  move=> Hxs Hy.
  have Hsz : size pts = size pts'.
    by rewrite -(size_map fst pts) -(size_map fst pts') -/(xs_of _) Hxs.
  rewrite /lagrangeInterpolation -Hsz; apply: foldl_ext_in => secret i.
  rewrite mem_iota add0n /= => Hi; have [H1 H2 H3] := Hy i Hi.
  by rewrite /outer_step (lagrange_term_residue Hxs H1 H2 H3).
Qed.

End Unconditional.

(** X6 - Magnitude of the results.  For every modulus [m >= 1] and all
    other inputs whatsoever, also when intermediate products overflow:
    [modPow] with [exp >= 1] and [lagrangeInterpolation] return a value
    strictly between [-m] and [m]. *)
Theorem results_below_modulus (m : Z) :
  (0 < m)%Z ->
  (forall b e : Z, (0 < e)%Z -> (Z.abs (modPow b e m) < m)%Z)
  /\ (forall pts : seq point,
        (Z.abs (lagrangeInterpolation pts m) < m)%Z).
Proof.
  move=> Hm; split.
    case=> [|b|b] [|e|e] // _; rewrite /modPow; exact: modPow_loop_abs.
  by move=> pts; apply: outer_loop_abs => //; lia.
Qed.

Lemma results_below_modulus_witness :
  (forall b e : Z, (0 < e)%Z -> (Z.abs (modPow b e 4294967311) < 4294967311)%Z)
  /\ (forall pts : seq point,
        (Z.abs (lagrangeInterpolation pts 4294967311) < 4294967311)%Z).
Proof.
  apply (@results_below_modulus 4294967311).
  reflexivity.
Defined.

(** X7 - Share values count modulo the modulus.  For every modulus
    [m >= 1], two point lists with the same x-coordinates whose
    non-negative share values are congruent modulo [m] position by
    position give the same result (no bound on the modulus or on the
    x-coordinates is needed). *)
Theorem reconstruct_residues (m : Z) (pts pts' : seq point) :
  (0 < m)%Z ->
  xs_of pts = xs_of pts' ->
  (forall i, (i < size pts)%nat ->
     [/\ (0 <= point_y pts i)%Z, (0 <= point_y pts' i)%Z
        & (point_y pts i mod m = point_y pts' i mod m)%Z]) ->
  lagrangeInterpolation pts m = lagrangeInterpolation pts' m.
Proof. by move=> Hm Hxs Hy; exact: lagrange_residues. Qed.

Lemma reconstruct_residues_witness :
  lagrangeInterpolation [:: (1, 4); (2, 7); (3, 12)]%Z 7
  = lagrangeInterpolation [:: (1, 11); (2, 0); (3, 75)]%Z 7.
Proof.
  apply (@reconstruct_residues 7).
  - reflexivity.
  - reflexivity.
  - intros [|[|[|i]]] Hi; try discriminate Hi; split; try reflexivity;
      discriminate.
Defined.

(** ** More on the reconstruction in the prime field *)

Section FieldMore.

Variable m : Z.
Hypothesis m_prime : Znumtheory.prime m.
Hypothesis m_small : (m < 2 ^ 31)%Z.

Local Notation p := (Z.to_nat m).
Local Notation phi := (to_Fp p).

Local Open Scope ring_scope.

(** The weight of position [i]: it depends on the x-coordinates only. *)
Local Notation weight pts i :=
  (\prod_(j <- iota 0 (size pts) | j != i) (- phi (point_x pts j))
   * (\prod_(j <- iota 0 (size pts) | j != i)
        (phi (point_x pts i) - phi (point_x pts j))) ^+ (p - 2)).

Lemma size_xs_of (pts : seq point) : size (xs_of pts) = size pts.
Proof. by rewrite size_map. Qed.

Lemma weight_xs (pts pts' : seq point) (i : nat) :
  xs_of pts = xs_of pts' -> weight pts i = weight pts' i.
Proof.
  move=> Hxs.
  have Hsz : size pts = size pts' by rewrite -!size_xs_of Hxs.
  have Hx j : point_x pts j = point_x pts' j by rewrite !point_x_nth Hxs.
  rewrite Hsz; congr (_ * _ ^+ _); apply: eq_bigr => j _; by rewrite !Hx.
Qed.

Lemma lagrange_weighted (pts : seq point) :
  field_points m pts ->
  phi (lagrangeInterpolation pts m)
  = \sum_(i <- iota 0 (size pts)) phi (point_y pts i) * weight pts i.
Proof.
  move=> Hf; have [_ ->] := lagrange_field m_prime m_small Hf.
  by apply: eq_bigr => i _; rewrite mulrA.
Qed.

Lemma lagrange_linear (a b : Z) (pts1 pts2 pts3 : seq point) :
  field_points m pts1 -> field_points m pts2 -> field_points m pts3 ->
  xs_of pts2 = xs_of pts1 -> xs_of pts3 = xs_of pts1 ->
  (forall i, (i < size pts1)%nat ->
     (point_y pts3 i mod m
      = (a * point_y pts1 i + b * point_y pts2 i) mod m)%Z) ->
  lagrangeInterpolation pts3 m
  = ((a * lagrangeInterpolation pts1 m
      + b * lagrangeInterpolation pts2 m) mod m)%Z.
Proof.
  move=> Hf1 Hf2 Hf3 Hx2 Hx3 Hy.
  have Hm := modulus_gt1 m_prime.
  have [Hr3 _] := lagrange_field m_prime m_small Hf3.
  apply: (to_Fp_inj m_prime) => //; first by apply: Z.mod_pos_bound; lia.
  rewrite (to_Fp_mod m_prime) (to_Fp_add m_prime) !(to_Fp_mul m_prime).
  rewrite !lagrange_weighted //.
  have Hs2 : size pts2 = size pts1 by rewrite -!size_xs_of Hx2.
  have Hs3 : size pts3 = size pts1 by rewrite -!size_xs_of Hx3.
  rewrite Hs2 Hs3 !big_distrr /= -big_split /=.
  rewrite big_seq_cond [RHS]big_seq_cond; apply: eq_bigr => i /andP [Hi _].
  move: Hi; rewrite mem_iota add0n /= => Hi.
  have /(congr1 phi) := Hy i Hi.
  rewrite !(to_Fp_mod m_prime) (to_Fp_add m_prime) !(to_Fp_mul m_prime) => ->.
  have := weight_xs i Hx2; have := weight_xs i Hx3.
  rewrite Hs2 Hs3 => -> ->.
  by rewrite mulrDl !mulrA.
Qed.

(** The denominator of position [i] vanishes exactly when the
    x-coordinate of [i] occurs at another position. *)
Lemma den_zero_iff (pts : seq point) (i : nat) :
  field_points m pts -> (i < size pts)%nat ->
  (num_den pts m i).2 = 0%Z
  <-> exists j, [/\ (j < size pts)%nat, j <> i
                  & point_x pts j = point_x pts i].
Proof.
  move=> Hf Hi; have Hm := modulus_gt1 m_prime.
  have [_ Hd _ Ed] := num_den_field m_prime m_small Hf Hi.
  have Hsq := modulus_square m_prime m_small.
  split=> [Hden|[j [Hj Hji Hx]]]; last first.
    apply: (@num_den_repeated m) => //; first by rewrite /LongLong.LLONG_MAX; lia.
    apply/hasP; exists j; first by rewrite mem_iota add0n.
    by rewrite Hx eqxx andbT; apply/eqP.
  have : phi (num_den pts m i).2 == 0 by rewrite Hden (to_Fp_0 m_prime).
  rewrite Ed -[_ == 0]negbK prodf_seq_neq0 -has_predC => /hasP [j].
  rewrite mem_iota add0n /= negb_imply negbK subr_eq0 => Hj /andP [Hji /eqP Hx].
  exists j; split=> //; first by apply/eqP.
  have [Hxi _] := point_range Hf Hi; have [Hxj _] := point_range Hf Hj.
  by apply: (to_Fp_inj m_prime) => //; lia.
Qed.

End FieldMore.

(** X8 - Linearity in the share values.  For every prime modulus
    [m < 2^31] and three point lists with the same x-coordinates in
    [[1, m)] and non-negative share values: when the third list's values
    are congruent to [a * y1 + b * y2] position by position, its result is
    [(a * r1 + b * r2) mod m], with [r1], [r2] the results of the first
    two lists. *)
Theorem reconstruct_linear (m a b : Z) (pts1 pts2 pts3 : seq point) :
  prime m -> (m < 2 ^ 31)%Z ->
  field_points m pts1 -> field_points m pts2 -> field_points m pts3 ->
  xs_of pts2 = xs_of pts1 -> xs_of pts3 = xs_of pts1 ->
  (forall i, (i < size pts1)%nat ->
     (point_y pts3 i mod m
      = (a * point_y pts1 i + b * point_y pts2 i) mod m)%Z) ->
  lagrangeInterpolation pts3 m
  = ((a * lagrangeInterpolation pts1 m
      + b * lagrangeInterpolation pts2 m) mod m)%Z.
Proof. by move=> Hp Hm; exact: lagrange_linear. Qed.

Lemma reconstruct_linear_witness :
  lagrangeInterpolation [:: (1, 10); (2, 6); (3, 16)]%Z 7
  = ((2 * lagrangeInterpolation [:: (1, 4); (2, 0); (3, 5)]%Z 7
      + 1 * lagrangeInterpolation [:: (1, 2); (2, 6); (3, 6)]%Z 7)
     mod 7)%Z.
Proof.
  apply (@reconstruct_linear 7 2 1).
  - exact prime_7.
  - reflexivity.
  - reflexivity.
  - reflexivity.
  - reflexivity.
  - reflexivity.
  - reflexivity.
  - intros [|[|[|i]]] Hi; try reflexivity; discriminate Hi.
Defined.

(** X9 - Zero denominators.  For every prime modulus [m < 2^31] and every
    point list with x-coordinates in [[1, m)] and non-negative share
    values, the denominator computed for position [i] is 0 exactly when
    the x-coordinate of [i] occurs at another position. *)
Theorem denominator_zero_iff_repeated (m : Z) (pts : seq point) (i : nat) :
  prime m -> (m < 2 ^ 31)%Z ->
  field_points m pts -> (i < size pts)%nat ->
  (num_den pts m i).2 = 0%Z
  <-> exists j, [/\ (j < size pts)%nat, j <> i
                  & point_x pts j = point_x pts i].
Proof. by move=> Hp Hm; exact: den_zero_iff. Qed.

Lemma denominator_zero_iff_repeated_witness :
  (num_den [:: (1, 3); (2, 4); (1, 5)]%Z 7 0).2 = 0%Z
  <-> exists j, [/\ (j < size [:: (1, 3); (2, 4); (1, 5)]%Z)%nat, j <> 0%nat
                  & point_x [:: (1, 3); (2, 4); (1, 5)]%Z j
                    = point_x [:: (1, 3); (2, 4); (1, 5)]%Z 0].
Proof.
  apply (@denominator_zero_iff_repeated 7).
  - exact prime_7.
  - reflexivity.
  - reflexivity.
  - reflexivity.
Defined.

(** X10 - Inverse of the denominator.  For every prime modulus
    [m < 2^31] and every point list with pairwise distinct x-coordinates in
    [[1, m)] and non-negative share values, the denominator of every
    position lies in [[1, m)] and the value [inv] that the loop computes
    from it is its modular inverse. *)
Theorem denominator_inverse (m : Z) (pts : seq point) (i : nat) :
  prime m -> (m < 2 ^ 31)%Z ->
  field_points m pts -> uniq (xs_of pts) -> (i < size pts)%nat ->
  let den := (num_den pts m i).2 in
  (1 <= den < m)%Z
  /\ ((den * modPow den (LongLong.sub m 2) m) mod m = 1)%Z.
Proof.
  move=> Hp Hm Hf Hu Hi /=.
  have Hm2 := prime_ge_2 _ Hp.
  have [_ Hd _ _] := num_den_field Hp Hm Hf Hi.
  have Hnz : (num_den pts m i).2 <> 0%Z.
    move/(den_zero_iff Hp Hm Hf Hi) => [j [Hj Hji Hx]]; apply: Hji.
    apply/eqP; rewrite -(nth_uniq 0%Z _ _ Hu) ?size_map //.
    by rewrite -!point_x_nth Hx.
  have Hden : (1 <= (num_den pts m i).2 < m)%Z by lia.
  split=> //.
  have -> : LongLong.sub m 2 = (m - 2)%Z by apply: sub_small; ll_range.
  exact: (modPow_inverse_mod Hp (modulus_square Hp Hm)).
Qed.

Lemma denominator_inverse_witness :
  let den := (num_den [:: (1, 4); (2, 7); (3, 12)]%Z 7 1).2 in
  (1 <= den < 7)%Z
  /\ ((den * modPow den (LongLong.sub 7 2) 7) mod 7 = 1)%Z.
Proof.
  apply (@denominator_inverse 7 [:: (1, 4); (2, 7); (3, 12)]%Z 1).
  - exact prime_7.
  - reflexivity.
  - reflexivity.
  - reflexivity.
  - reflexivity.
Defined.

(** ** main: the shares of a case and its secret *)

Section CaseShares.

Local Open Scope Z_scope.

Variable entry : Z -> Z * string.

Local Notation share_of i :=
  (i, decodeBaseString (entry i).2 (entry i).1).

Lemma shares_loop_spec (count : nat) :
  forall (i : Z) (shares : seq point),
    shares_loop count i entry shares
    = shares ++ [seq share_of (i + Z.of_nat t) | t <- iota 0 count].
Proof.
  elim: count => [|count IH] i shares; first by rewrite /= cats0.
  rewrite [shares_loop _ _ _ _]/= IH -cats1 -catA; congr (_ ++ _).
  rewrite cat1s -[iota 0 count.+1]/(0%nat :: iota 1 count) map_cons.
  rewrite Nat2Z.inj_0 Z.add_0_r; congr (_ :: _).
  rewrite (iotaDl 1 0 count) -map_comp; apply: eq_map => t.
  by rewrite /comp add1n Nat2Z.inj_succ -Z.add_1_l Z.add_assoc.
Qed.

Lemma case_shares_spec (k : Z) :
  case_shares k entry
  = [seq share_of (1 + Z.of_nat t) | t <- iota 0 (Z.to_nat k)].
Proof. by rewrite /case_shares shares_loop_spec. Qed.

Lemma size_case_shares (k : Z) : size (case_shares k entry) = Z.to_nat k.
Proof. by rewrite case_shares_spec size_map size_iota. Qed.

Lemma nth_case_shares (k : Z) (t : nat) :
  (t < Z.to_nat k)%nat ->
  nth (0, 0) (case_shares k entry) t = share_of (1 + Z.of_nat t).
Proof.
  move=> Ht; rewrite case_shares_spec (nth_map 0%nat) ?size_iota //.
  by rewrite nth_iota // add0n.
Qed.

Lemma xs_case_shares (k : Z) :
  xs_of (case_shares k entry)
  = [seq 1 + Z.of_nat t | t <- iota 0 (Z.to_nat k)].
Proof. by rewrite /xs_of case_shares_spec -map_comp. Qed.

Lemma uniq_case_shares (k : Z) : uniq (xs_of (case_shares k entry)).
Proof.
  rewrite xs_case_shares map_inj_uniq ?iota_uniq // => a b H.
  by apply: Nat2Z.inj; lia.
Qed.

Lemma positional_value_nonneg (base : Z) (ds : seq Z) :
  0 <= base -> all (fun d => 0 <=? d) ds -> 0 <= positional_value base ds.
Proof.
  move=> Hb; elim: ds => [|d ds IH] Hnn; first by [].
  have /andP [/Z.leb_spec0 Hd H0] := Hnn.
  rewrite positional_value_cons.
  have := Z.pow_nonneg base (Z.of_nat (size ds)) Hb.
  by have := IH H0; nia.
Qed.

Lemma decode_nonneg (s : string) (base : Z) :
  0 <= base -> string_digits s <> None -> 0 <= decodeBaseString s base.
Proof.
  move=> Hb; case Hs: (string_digits s) => [ds|] // _.
  rewrite (decode_positional _ Hs).
  by apply: positional_value_nonneg => //; exact: string_digits_nonneg Hs.
Qed.

(** The shares of a case with fewer than [m] entries, non-negative bases
    and digit strings over [0-9a-zA-Z] are points of the field. *)
Lemma field_case_shares (m k : Z) :
  k < m ->
  (forall i, 1 <= i <= k ->
     0 <= (entry i).1 /\ string_digits (entry i).2 <> None) ->
  field_points m (case_shares k entry).
Proof.
  move=> Hk Hentry; apply/(all_nthP (0, 0)) => t.
  rewrite size_case_shares => Ht; rewrite (nth_case_shares Ht).
  have Hlt : (Z.of_nat t < k) by move/ltP: Ht; lia.
  have [Hb Hs] := Hentry (1 + Z.of_nat t) ltac:(lia).
  have Hx : 1 <= 1 + Z.of_nat t < m by lia.
  move: Hx Hb Hs; move: (1 + Z.of_nat t) => x Hx Hb Hs.
  rewrite /field_point /=; apply/andP; split; [apply/andP; split|].
  - by apply/Z.leb_spec0; lia.
  - by apply/Z.ltb_spec0; lia.
  - by apply/Z.leb_spec0; apply: decode_nonneg.
Qed.

End CaseShares.

(** X11 - The shares that main builds.  For every threshold [k] below
    [INT_MAX] (so that the [int] counter [i] never overflows) and every
    case whose entries [1..k] are present with a non-negative base and a
    digit string over [0-9a-zA-Z], the vector handed to
    [lagrangeInterpolation] has [k] points (none when [k <= 0]); the point
    at position [t] has the x-coordinate [t + 1] and the decoded value of
    the entry [t + 1]; no x-coordinate is repeated, so the denominators of
    a case never meet a repeated x. *)
Theorem case_shares_indexed (k : Z) (entry : Z -> Z * string) :
  (k < 2 ^ 31 - 1)%Z ->
  (forall i, (1 <= i <= k)%Z ->
     (0 <= (entry i).1)%Z /\ string_digits (entry i).2 <> None) ->
  size (case_shares k entry) = Z.to_nat k
  /\ (forall t : nat,
        (t < Z.to_nat k)%nat ->
        nth (0, 0)%Z (case_shares k entry) t
        = ((1 + Z.of_nat t)%Z,
           decodeBaseString (entry (1 + Z.of_nat t)%Z).2
                            (entry (1 + Z.of_nat t)%Z).1))
  /\ ~~ has_duplicate_x (case_shares k entry).
Proof.
  move=> _ _.
  split; first exact: size_case_shares.
  split; first by move=> t Ht; exact: nth_case_shares.
  by rewrite /has_duplicate_x negbK; exact: uniq_case_shares.
Qed.

Lemma case_shares_indexed_witness :
  let entry := fun i => if (i =? 1)%Z then (10%Z, "4"%string)
                        else if (i =? 2)%Z then (16%Z, "7"%string)
                        else (2%Z, "1100"%string) in
  size (case_shares 3 entry) = Z.to_nat 3
  /\ (forall t : nat,
        (t < Z.to_nat 3)%nat ->
        nth (0, 0)%Z (case_shares 3 entry) t
        = ((1 + Z.of_nat t)%Z,
           decodeBaseString (entry (1 + Z.of_nat t)%Z).2
                            (entry (1 + Z.of_nat t)%Z).1))
  /\ ~~ has_duplicate_x (case_shares 3 entry).
Proof.
  intro entry; apply (@case_shares_indexed 3 entry).
  - reflexivity.
  - intros i Hi.
    assert (H : i = 1%Z \/ i = 2%Z \/ i = 3%Z) by lia.
    destruct H as [H|[H|H]]; subst i; split; try discriminate.
Defined.

Lemma MOD_small : (MOD < 2 ^ 31)%Z.
Proof. by []. Qed.

(** X12 - Range of the printed secret.  For every case with [k < MOD]
    whose entries [1..k] have a non-negative base and a digit string over
    [0-9a-zA-Z], the secret that main computes lies in [[0, MOD)]. *)
Theorem case_secret_range (k : Z) (entry : Z -> Z * string) :
  (k < MOD)%Z ->
  (forall i, (1 <= i <= k)%Z ->
     (0 <= (entry i).1)%Z /\ string_digits (entry i).2 <> None) ->
  (0 <= case_secret k entry < MOD)%Z.
Proof.
  move=> Hk Hentry.
  have Hf := field_case_shares Hk Hentry.
  by have [] := lagrange_field prime_1000000007 MOD_small Hf.
Qed.

Lemma case_secret_range_witness :
  (0 <= case_secret 3
          (fun i => if (i =? 1)%Z then (10%Z, "4"%string)
                    else if (i =? 2)%Z then (16%Z, "7"%string)
                    else (2%Z, "1100"%string))
   < MOD)%Z.
Proof.
  apply case_secret_range.
  - reflexivity.
  - intros i Hi.
    assert (H : i = 1%Z \/ i = 2%Z \/ i = 3%Z) by lia.
    destruct H as [H|[H|H]]; subst i; split; try discriminate.
Defined.

(** X13 - End to end.  For every case with [k < MOD] whose entries [1..k]
    have a non-negative base and a digit string over [0-9a-zA-Z]: when the
    decoded value of each entry [i] is congruent modulo [MOD] to [f(i)]
    for a polynomial [f] with at most [k] integer coefficients, the secret
    that main computes is the constant term of [f] modulo [MOD]. *)
Theorem case_secret_roundtrip (k : Z) (entry : Z -> Z * string)
    (coeffs : seq Z) :
  (k < MOD)%Z ->
  (forall i, (1 <= i <= k)%Z ->
     (0 <= (entry i).1)%Z /\ string_digits (entry i).2 <> None) ->
  (size coeffs <= Z.to_nat k)%nat ->
  (forall i, (1 <= i <= k)%Z ->
     (decodeBaseString (entry i).2 (entry i).1 mod MOD
      = poly_eval coeffs i mod MOD)%Z) ->
  case_secret k entry = (nth 0%Z coeffs 0 mod MOD)%Z.
Proof.
  move=> Hk Hentry Hsz Hy.
  have Hf := field_case_shares Hk Hentry.
  apply: (lagrange_roundtrip_field prime_1000000007 MOD_small Hf).
  - exact: uniq_case_shares.
  - by rewrite size_case_shares.
  - move=> t; rewrite size_case_shares => Ht.
    rewrite /point_y /point_x (nth_case_shares entry Ht).
    by apply: Hy; move/ltP: Ht; lia.
Qed.

Lemma case_secret_roundtrip_witness :
  case_secret 3
    (fun i => if (i =? 1)%Z then (10%Z, "4"%string)
              else if (i =? 2)%Z then (16%Z, "7"%string)
              else (2%Z, "1100"%string))
  = (nth 0%Z [:: 3; 0; 1]%Z 0 mod MOD)%Z.
Proof.
  apply case_secret_roundtrip.
  - reflexivity.
  - intros i Hi.
    assert (H : i = 1%Z \/ i = 2%Z \/ i = 3%Z) by lia.
    destruct H as [H|[H|H]]; subst i; split; try discriminate.
  - reflexivity.
  - intros i Hi.
    assert (H : i = 1%Z \/ i = 2%Z \/ i = 3%Z) by lia.
    destruct H as [H|[H|H]]; subst i; reflexivity.
Defined.

(** X14 - A case without shares.  For every [k <= 0] the loop of main
    builds no share and the secret it prints is 0: such a case is not
    rejected. *)
Theorem case_without_shares (k : Z) (entry : Z -> Z * string) :
  (k <= 0)%Z ->
  case_shares k entry = [::] /\ case_secret k entry = 0%Z.
Proof.
  move=> Hk; rewrite /case_secret /case_shares.
  by have -> : Z.to_nat k = 0%nat by lia.
Qed.

Lemma case_without_shares_witness :
  case_shares (-2) (fun _ => (10%Z, "5"%string)) = [::]
  /\ case_secret (-2) (fun _ => (10%Z, "5"%string)) = 0%Z.
Proof.
  apply case_without_shares.
  discriminate.
Defined.
